(** * Shallow embedding of gcbmanimation's BoundingBox and CompositeIndicator

    Sources: [gcbmanimation/layer/boundingbox.py] and
    [gcbmanimation/indicator/compositeindicator.py].

    Python objects live in a heap of object ids; raster files live in a file
    system keyed by path.  Attribute reads and writes are heap reads and
    writes, so that aliasing (a bounding box cropping itself) is visible.
    Raster pixels, nodata values and geotransform coefficients are modelled
    as integers [Z] (NaN and infinite values are outside the model); rasters
    are single-band, every raster declares a nodata value and carries its band
    data type, to which the raster calculator converts its float64 result. *)

From Stdlib Require Import ZArith List String Ascii Bool Lia.
Import ListNotations.
Open Scope Z_scope.

(** ** Data model *)

(** File paths: user files, and the temporary files handed out by
    [TempFileManager.mktmp]. *)
Inductive path : Type :=
| PUser (s : string)
| PTmp (n : nat).

Definition path_eq_dec (p q : path) : {p = q} + {p <> q}.
Proof. decide equality; [apply string_dec | apply Nat.eq_dec]. Defined.

(** GDAL geotransform: (origin_x, x_size, rot_x, origin_y, rot_y, y_size). *)
Definition geotransform := (Z * Z * Z * Z * Z * Z)%type.

(** GDAL band data types, in the order of GDAL's [GDALDataType] numbering
    (GDT_Byte = 1 up to GDT_Float64 = 7); the complex and 64-bit integer
    types are not modelled. *)
Inductive gdal_type : Type :=
| GDT_Byte
| GDT_UInt16
| GDT_Int16
| GDT_UInt32
| GDT_Int32
| GDT_Float32
| GDT_Float64.

Definition gdal_type_num (t : gdal_type) : Z :=
  match t with
  | GDT_Byte => 1 | GDT_UInt16 => 2 | GDT_Int16 => 3 | GDT_UInt32 => 4
  | GDT_Int32 => 5 | GDT_Float32 => 6 | GDT_Float64 => 7
  end.

(** A single-band raster file: [ReadAsArray] grid, band nodata value,
    geotransform and band data type. *)
Record raster := mkRaster {
  r_data : list (list Z);
  r_nodata : Z;
  r_gt : geotransform;
  r_type : gdal_type
}.

(** Python values used as a layer's [year]. *)
Inductive pyval : Type :=
| PyNone
| PyInt (z : Z)
| PyStr (s : string).

(** A [Layer] object; the last three fields are the extra attributes of a
    [BoundingBox] ([_min_pixel_bounds], [_min_geographic_bounds],
    [_initialized]) and keep their initial values on a plain [Layer].
    [o_nodata] is the lazily read nodata cache of [Layer.nodata_value]. *)
Record obj := mkObj {
  o_path : path;
  o_year : pyval;
  o_interp : option string;
  o_nodata : option Z;
  o_pb : option (list Z);
  o_gb : option (list Z);
  o_init : bool
}.

(** Modelled from the spec: the [Layer] constructor (layer.py is not part of
    the sources) stores path, year and interpretation; the nodata value is
    read lazily.  The year is stored as the value passed in: whether the real
    constructor converts it is not known from the sources, and no theorem
    here depends on a conversion. *)
Definition Layer (p : path) (year : pyval) (interp : option string) : obj :=
  mkObj p year interp None None None false.

(** [BoundingBox.__init__]: [super().__init__(path, 0)] and empty caches. *)
Definition BoundingBox (p : path) : obj :=
  mkObj p (PyInt 0) None None None None false.

Definition set_path (p : path) (o : obj) : obj :=
  mkObj p (o_year o) (o_interp o) (o_nodata o) (o_pb o) (o_gb o) (o_init o).
Definition set_nodata (z : Z) (o : obj) : obj :=
  mkObj (o_path o) (o_year o) (o_interp o) (Some z) (o_pb o) (o_gb o) (o_init o).
Definition set_pb (b : list Z) (o : obj) : obj :=
  mkObj (o_path o) (o_year o) (o_interp o) (o_nodata o) (Some b) (o_gb o) (o_init o).
Definition set_gb (b : list Z) (o : obj) : obj :=
  mkObj (o_path o) (o_year o) (o_interp o) (o_nodata o) (o_pb o) (Some b) (o_init o).
Definition set_init (v : bool) (o : obj) : obj :=
  mkObj (o_path o) (o_year o) (o_interp o) (o_nodata o) (o_pb o) (o_gb o) v.

(** The world: raster files, the object heap, and the counter behind
    [TempFileManager.mktmp]. *)
Record world := mkWorld {
  fs : path -> option raster;
  heap : nat -> option obj;
  next_tmp : nat
}.

Definition upd_fs (p : path) (r : raster) (f : path -> option raster) :=
  fun q => if path_eq_dec q p then Some r else f q.
Definition upd_heap (i : nat) (o : obj) (h : nat -> option obj) :=
  fun j => if Nat.eq_dec j i then Some o else h j.

(** ** A state and exception monad *)

Inductive py_error : Type :=
| IOError (msg : string)
| AttributeError
| ValueError
| CalcError.

Inductive result (A : Type) : Type :=
| Ok (a : A)
| Err (e : py_error).
Arguments Ok {A} a.
Arguments Err {A} e.

(** Computations over a state [St] that may raise a Python exception. *)
Definition SM (St A : Type) := St -> result A * St.

Definition ret {St A} (a : A) : SM St A := fun w => (Ok a, w).
Definition raise {St A} (e : py_error) : SM St A := fun w => (Err e, w).
Definition bind {St A B} (c : SM St A) (k : A -> SM St B) : SM St B :=
  fun w => match c w with
           | (Ok a, w') => k a w'
           | (Err e, w') => (Err e, w')
           end.

Definition M (A : Type) := SM world A.

Notation "x <- c ;; k" := (bind c (fun x => k))
  (at level 61, c at next level, right associativity).
Notation "c ;; k" := (bind c (fun _ => k))
  (at level 61, right associativity).

(** Attribute access on a heap object. *)
Definition get_obj (i : nat) : M obj :=
  fun w => match heap w i with
           | Some o => (Ok o, w)
           | None => (Err AttributeError, w)
           end.

Definition modify_obj (i : nat) (f : obj -> obj) : M unit :=
  fun w => match heap w i with
           | Some o => (Ok tt, mkWorld (fs w) (upd_heap i (f o) (heap w)) (next_tmp w))
           | None => (Err AttributeError, w)
           end.

(** [gdal.Open(p)] and the first use of the dataset it returns.  For a
    missing file [gdal.Open] returns [None] (the sources do not enable GDAL
    exceptions) and reads nothing; the error [e] is raised where [None] is
    first used: [AttributeError] for a method call such as [.ReadAsArray()],
    [ValueError] when [gdal.Translate] receives it (a NULL dataset), and
    [CalcError] for the exception [gdal_calc.Calc] raises on an input file it
    cannot open. *)
Definition gdal_open (e : py_error) (p : path) : M raster :=
  fun w => match fs w p with
           | Some r => (Ok r, w)
           | None => (Err e, w)
           end.

(** Writing a new raster file at [p]. *)
Definition gdal_write (p : path) (r : raster) : M unit :=
  fun w => (Ok tt, mkWorld (upd_fs p r (fs w)) (heap w) (next_tmp w)).

(** Modelled from the spec: [TempFileManager.mktmp(suffix=".tif")] (not in the
    sources) returns a fresh unique file path on every call. *)
Definition mktmp : M path :=
  fun w => (Ok (PTmp (next_tmp w)), mkWorld (fs w) (heap w) (S (next_tmp w))).

(** Modelled from the spec: [Layer.nodata_value], read from the raster's
    metadata on first access and cached; a missing file is taken to fail as a
    method call on the [None] from [gdal.Open]. *)
Definition nodata_value (i : nat) : M Z :=
  o <- get_obj i ;;
  match o_nodata o with
  | Some z => ret z
  | None =>
      r <- gdal_open AttributeError (o_path o) ;;
      modify_obj i (set_nodata (r_nodata r)) ;;
      ret (r_nodata r)
  end.

(** ** BoundingBox.min_pixel_bounds *)

(** [np.where(row != nodata)[0]]: the column indices that differ from nodata. *)
Fixpoint where_ne_from (nd : Z) (j : Z) (row : list Z) : list Z :=
  match row with
  | [] => []
  | v :: rest =>
      if Z.eqb v nd then where_ne_from nd (j + 1) rest
      else j :: where_ne_from nd (j + 1) rest
  end.

Definition where_ne (nd : Z) (row : list Z) : list Z := where_ne_from nd 0 row.

(** [np.min] and [np.max], only applied to non-empty index lists. *)
Definition np_min (xs : list Z) : Z :=
  match xs with [] => 0 | x :: rest => fold_left Z.min rest x end.
Definition np_max (xs : list Z) : Z :=
  match xs with [] => 0 | x :: rest => fold_left Z.max rest x end.

(** [raster_data.shape[1]]: the width of the grid. *)
Definition shape1 (rows : list (list Z)) : Z :=
  match rows with [] => 0 | row :: _ => Z.of_nat (List.length row) end.

(** The body of the row loop (lines 36-45); the accumulator is
    (x_min, x_max, y_min, y_max). *)
Definition scan_row (nd : Z) (i : Z) (row : list Z) (acc : Z * Z * Z * Z)
  : Z * Z * Z * Z :=
  let '(x_min, x_max, y_min, y_max) := acc in
  let x_index := where_ne nd row in
  match x_index with
  | [] => acc
  | _ =>
      let x_index_min := np_min x_index in
      let x_index_max := np_max x_index in
      let y_min' := if Z.eqb y_min 0 then i else y_min in
      let x_min' := if x_index_min <? x_min then x_index_min else x_min in
      let x_max' := if x_index_max >? x_max then x_index_max else x_max in
      (x_min', x_max', y_min', i)
  end.

(** [for i, row in enumerate(raster_data)], reading [self.nodata_value] in
    every iteration. *)
Fixpoint scan_rows (b : nat) (rows : list (list Z)) (i : Z) (acc : Z * Z * Z * Z)
  : M (Z * Z * Z * Z) :=
  match rows with
  | [] => ret acc
  | row :: rest =>
      nd <- nodata_value b ;;
      scan_rows b rest (i + 1) (scan_row nd i row acc)
  end.

(** Python truthiness of the cached bounds list ([if not self._min_pixel_bounds]). *)
Definition truthy_list (c : option (list Z)) : bool :=
  match c with Some (_ :: _) => true | _ => false end.

Definition cached (c : option (list Z)) : list Z :=
  match c with Some p => p | None => [] end.

Definition min_pixel_bounds (b : nat) : M (list Z) :=
  o <- get_obj b ;;
  if truthy_list (o_pb o) then ret (cached (o_pb o))
  else
    r <- gdal_open AttributeError (o_path o) ;;
    let raster_data := r_data r in
    acc <- scan_rows b raster_data 0 (shape1 raster_data, 0, 0, 0) ;;
    let '(x_min, x_max, y_min, y_max) := acc in
    let p := [x_min - 1; x_max + 1; y_min - 1; y_max + 1] in
    modify_obj b (set_pb p) ;;
    ret p.

(** ** BoundingBox.min_geographic_bounds *)

(** Lines 61-66: [origin + pixel * size] on each axis, in the order
    [x_min_proj, y_min_proj, x_max_proj, y_max_proj]. *)
Definition geo_of_pixel (gt : geotransform) (x_min x_max y_min y_max : Z) : list Z :=
  let '(origin_x, x_size, _, origin_y, _, y_size) := gt in
  [origin_x + x_min * x_size; origin_y + y_min * y_size;
   origin_x + x_max * x_size; origin_y + y_max * y_size].

Definition min_geographic_bounds (b : nat) : M (list Z) :=
  o <- get_obj b ;;
  if truthy_list (o_gb o) then ret (cached (o_gb o))
  else
    p <- min_pixel_bounds b ;;
    match p with
    | [x_min; x_max; y_min; y_max] =>
        o' <- get_obj b ;;
        r <- gdal_open AttributeError (o_path o') ;;
        let g := geo_of_pixel (r_gt r) x_min x_max y_min y_max in
        modify_obj b (set_gb g) ;;
        ret g
    | _ => raise ValueError
    end.

(** ** The raster calculator ([gdal_calc.Calc]) *)

(** The expression ["A * (B != nb) + ((B == nb) * nl)"] at one pixel, in
    exact arithmetic. *)
Definition calc_expr (nb nl a bv : Z) : Z :=
  a * (if bv =? nb then 0 else 1) + (if bv =? nb then 1 else 0) * nl.

(** [gdal_calc] writes the output nodata value wherever an input pixel equals
    that input's own nodata value, and the expression elsewhere. *)
Definition calc_pixel (ndA ndB nout nb nl a bv : Z) : Z :=
  if (a =? ndA) || (bv =? ndB) then nout else calc_expr nb nl a bv.

(** Rounding an integer to [p] significant bits, ties to even. *)
Definition round_sig (p z : Z) : Z :=
  let m := Z.abs z in
  let k := Z.log2 m + 1 - p in
  if k <=? 0 then z
  else
    let q := Z.shiftr m k in
    let rem := m - Z.shiftl q k in
    let half := Z.shiftl 1 (k - 1) in
    let q' := if (half <? rem) || ((rem =? half) && Z.odd q) then q + 1 else q in
    Z.sgn z * Z.shiftl q' k.

(** numpy evaluates the expression in float64: the nodata values are Python
    floats ([GetNoDataValue]), so the integer pixel arrays are promoted. *)
Definition f64 (z : Z) : Z := round_sig 53 z.

Definition clamp (lo hi z : Z) : Z := Z.max lo (Z.min hi z).

(** The largest finite float32 value. *)
Definition flt_max : Z := (2 ^ 24 - 1) * 2 ^ 104.

(** GDAL's conversion of a float64 value written to a band of type [t]:
    integer types round and saturate, float32 rounds to 24 significant bits
    and saturates at its largest finite value. *)
Definition gdal_cast (t : gdal_type) (z : Z) : Z :=
  match t with
  | GDT_Byte => clamp 0 255 z
  | GDT_UInt16 => clamp 0 65535 z
  | GDT_Int16 => clamp (-32768) 32767 z
  | GDT_UInt32 => clamp 0 4294967295 z
  | GDT_Int32 => clamp (-2147483648) 2147483647 z
  | GDT_Float32 => clamp (- flt_max) flt_max (round_sig 24 z)
  | GDT_Float64 => z
  end.

(** With no [type] argument, [gdal_calc] writes the largest of the input
    types ([max] of their GDAL numbers). *)
Definition type_max (t1 t2 : gdal_type) : gdal_type :=
  if gdal_type_num t1 <? gdal_type_num t2 then t2 else t1.

Definition calc_row (t : gdal_type) (ndA ndB nout nb nl : Z) (ra rb : list Z) : list Z :=
  map (fun '(a, bv) => gdal_cast t (f64 (calc_pixel ndA ndB nout nb nl a bv)))
      (combine ra rb).

(** The raster [gdal_calc] writes for inputs [A] and [B]: the geotransform
    of the first input and the output nodata value. *)
Definition calc_raster (nb nl nout : Z) (A B : raster) : raster :=
  let t := type_max (r_type A) (r_type B) in
  mkRaster
    (map (fun '(ra, rb) => calc_row t (r_nodata A) (r_nodata B) nout nb nl ra rb)
         (combine (r_data A) (r_data B)))
    nout (r_gt A) t.

(** [(RasterXSize, RasterYSize)]. *)
Definition raster_dims (r : raster) : Z * Z :=
  (shape1 (r_data r), Z.of_nat (List.length (r_data r))).

Definition dims_eqb (A B : raster) : bool :=
  let '(xa, ya) := raster_dims A in
  let '(xb, yb) := raster_dims B in
  (xa =? xb) && (ya =? yb).

(** [gdal_calc.Calc(calc, outfile, nout, A=pa, B=pb)]: it opens both inputs
    (an input it cannot open is an error), refuses inputs of different
    dimensions, and writes [calc_raster] to [outfile]. *)
Definition gdal_calc (nb nl nout : Z) (outfile pa pb : path) : M unit :=
  A <- gdal_open CalcError pa ;;
  B <- gdal_open CalcError pb ;;
  if dims_eqb A B then gdal_write outfile (calc_raster nb nl nout A B)
  else raise CalcError.


(** ** BoundingBox.crop *)

Section Crop.

(** [gdal.Translate(dst, src, projWin=window)]: the GDAL windowing routine,
    left abstract. *)
Variable gdal_translate : raster -> list Z -> raster.

Definition crop (b l : nat) : M obj :=
  o <- get_obj b ;;
  (* gdal.Open(self._path) reads nothing; projWin is evaluated next, and
     gdal.Translate raises on a missing file after it. *)
  (if negb (o_init o) then
     bbox_path <- mktmp ;;
     g <- min_geographic_bounds b ;;
     src <- gdal_open ValueError (o_path o) ;;
     gdal_write bbox_path (gdal_translate src g) ;;
     modify_obj b (set_path bbox_path) ;;
     modify_obj b (set_init true)
   else ret tt) ;;
  (* Clip to bounding box geographical area. *)
  tmp_path <- mktmp ;;
  lo <- get_obj l ;;
  g <- min_geographic_bounds b ;;
  src <- gdal_open ValueError (o_path lo) ;;
  gdal_write tmp_path (gdal_translate src g) ;;
  (* Clip to bounding box nodata mask. *)
  nb <- nodata_value b ;;
  nl <- nodata_value l ;;
  output_path <- mktmp ;;
  nout <- nodata_value l ;;
  ob <- get_obj b ;;
  gdal_calc nb nl nout output_path tmp_path (o_path ob) ;;
  lo' <- get_obj l ;;
  ret (Layer output_path (o_year lo') (o_interp lo')).

End Crop.

(** The pure reading of the row loop once the nodata value is known. *)
Fixpoint scan_pure (nd : Z) (rows : list (list Z)) (i : Z) (acc : Z * Z * Z * Z)
  : Z * Z * Z * Z :=
  match rows with
  | [] => acc
  | row :: rest => scan_pure nd rest (i + 1) (scan_row nd i row acc)
  end.

Definition pixel_bounds (nd : Z) (rows : list (list Z)) : list Z :=
  let '(x_min, x_max, y_min, y_max) := scan_pure nd rows 0 (shape1 rows, 0, 0, 0) in
  [x_min - 1; x_max + 1; y_min - 1; y_max + 1].

(** ** CompositeIndicator *)

(** [os.path.splitext(p)[0]] (POSIX): the path up to its last dot, when that
    dot lies in the last path component and is not one of the component's
    leading dots; the whole path otherwise. *)
Fixpoint rfind_from (c : ascii) (s : list ascii) (i acc : Z) : Z :=
  match s with
  | [] => acc
  | x :: rest => rfind_from c rest (i + 1) (if Ascii.eqb x c then i else acc)
  end.

Definition rfind (c : ascii) (s : list ascii) : Z := rfind_from c s 0 (-1).

Definition splitext_root (p : string) : string :=
  let s := list_ascii_of_string p in
  let sepIndex := rfind "/"%char s in
  let dotIndex := rfind "."%char s in
  if sepIndex <? dotIndex then
    let stem := firstn (Z.to_nat (dotIndex - (sepIndex + 1)))
                       (skipn (Z.to_nat (sepIndex + 1)) s) in
    if existsb (fun c => negb (Ascii.eqb c "."%char)) stem
    then string_of_list_ascii (firstn (Z.to_nat dotIndex) s)
    else p
  else p.

(** [s[-4:]]: the last four characters, or the whole string if shorter. *)
Definition last4 (s : string) : string :=
  let cs := list_ascii_of_string s in
  string_of_list_ascii (skipn (List.length cs - 4) cs).

Inductive BlendMode : Type :=
| Add
| Subtract.

(** Modelled from the spec: a [LayerCollection] (layercollection.py is not
    part of the sources) is an ordered sequence of layers; as a Python object
    it has an identity [c_id], and it is falsy exactly when it is empty. *)
Record coll := mkColl {
  c_id : nat;
  c_layers : list obj
}.

Definition coll_truthy (c : coll) : bool :=
  match c_layers c with [] => false | _ => true end.

(** [if not self._composite_layers]: [None] or an empty collection. *)
Definition composite_truthy (c : option coll) : bool :=
  match c with Some c => coll_truthy c | None => false end.

(** The attributes of a [CompositeIndicator] that [_init] reads and writes;
    the patterns mapping is kept in its iteration order. *)
Record ci := mkCI {
  ci_patterns : list (string * BlendMode);
  ci_composite : option coll;
  ci_provider : option (list obj)
}.

(** The indicator, the counter behind fresh collection identities, and the
    [blend] calls made so far (base, blended-in collection, mode). *)
Record cworld := mkCW {
  cw_ci : ci;
  cw_next_id : nat;
  cw_blends : list (coll * coll * BlendMode)
}.

Definition CM (A : Type) := SM cworld A.

Definition get_ci : CM ci := fun w => (Ok (cw_ci w), w).

Definition set_composite (c : coll) : CM unit :=
  fun w => let o := cw_ci w in
           (Ok tt, mkCW (mkCI (ci_patterns o) (Some c) (ci_provider o))
                        (cw_next_id w) (cw_blends w)).

Definition set_provider (ls : list obj) : CM unit :=
  fun w => let o := cw_ci w in
           (Ok tt, mkCW (mkCI (ci_patterns o) (ci_composite o) (Some ls))
                        (cw_next_id w) (cw_blends w)).

(** [LayerCollection(...)]: a new, empty collection. *)
Definition new_coll : CM coll :=
  fun w => (Ok (mkColl (cw_next_id w) []), mkCW (cw_ci w) (S (cw_next_id w)) (cw_blends w)).

(** [layers.append(layer)] on a collection not yet shared. *)
Definition coll_append (c : coll) (o : obj) : coll :=
  mkColl (c_id c) (c_layers c ++ [o]).

Definition no_output_msg (pattern : string) : string :=
  "No spatial output found for pattern: " ++ pattern.

Section Composite.

(** [glob(pattern)]: the file system's matches, in the order returned. *)
Variable glob : string -> list string.

(** The pixel-wise combination of two layer sequences under a blend mode. *)
Variable blend_layers : list obj -> list obj -> BlendMode -> list obj.

(** Modelled from the spec: [LayerCollection.blend] returns a new collection
    and leaves both operands unchanged. *)
Definition blend (self other : coll) (mode : BlendMode) : CM coll :=
  fun w => (Ok (mkColl (cw_next_id w) (blend_layers (c_layers self) (c_layers other) mode)),
            mkCW (cw_ci w) (S (cw_next_id w)) (cw_blends w ++ [(self, other, mode)])).

(** [CompositeIndicator._find_layers]. *)
Definition find_layers (pattern : string) : CM coll :=
  layers <- new_coll ;;
  let layers :=
    fold_left (fun c layer_path =>
                 let year := last4 (splitext_root layer_path) in
                 coll_append c (Layer (PUser layer_path) (PyStr year) None))
              (glob pattern) layers in
  if negb (coll_truthy layers) then raise (IOError (no_output_msg pattern))
  else ret layers.

(** The loop [for pattern, blend_mode in self._patterns.items()]. *)
Fixpoint blend_patterns (ps : list (string * BlendMode)) : CM unit :=
  match ps with
  | [] => ret tt
  | (pattern, blend_mode) :: rest =>
      layers <- find_layers pattern ;;
      o <- get_ci ;;
      match ci_composite o with
      | Some cur =>
          c <- blend cur layers blend_mode ;;
          set_composite c ;;
          blend_patterns rest
      | None => raise AttributeError
      end
  end.

(** [CompositeIndicator._init]. *)
Definition ci_init : CM unit :=
  o <- get_ci ;;
  if negb (composite_truthy (ci_composite o)) then
    c <- new_coll ;;
    set_composite c ;;
    blend_patterns (ci_patterns o) ;;
    o' <- get_ci ;;
    set_provider (match ci_composite o' with Some c => c_layers c | None => [] end)
  else ret tt.

(** [render_map_frames]: [_init], then rendering of the composite (left
    abstract); the result is the collection that gets rendered. *)
Definition render_map_frames : CM coll :=
  ci_init ;;
  o <- get_ci ;;
  match ci_composite o with Some c => ret c | None => raise AttributeError end.

End Composite.

(** A new indicator: [self._composite_layers = None]. *)
Definition fresh_ci (patterns : list (string * BlendMode)) : cworld :=
  mkCW (mkCI patterns None None) 0 [].

(** ** Definitions used by the proofs *)

(** Two objects with the same identity attributes: path, year,
    interpretation and initialisation flag. *)
Definition same_id (o o' : obj) : Prop :=
  o_path o' = o_path o /\ o_year o' = o_year o /\ o_interp o' = o_interp o
  /\ o_init o' = o_init o.

(** [w'] differs from [w] at most in the caches of object [i]. *)
Definition frame (i : nat) (w w' : world) : Prop :=
  fs w' = fs w /\ next_tmp w' = next_tmp w
  /\ (forall j, j <> i -> heap w' j = heap w j)
  /\ (forall o, heap w i = Some o -> exists o', heap w' i = Some o' /\ same_id o o').

Definition frames (i : nat) {A} (c : M A) : Prop := forall w, frame i w (snd (c w)).

(** A 2x2 raster with every pixel carrying data (nodata 0). *)
Definition full_2x2 : raster := mkRaster [[1; 1]; [1; 1]] 0 (0, 1, 0, 0, 0, -1) GDT_Byte.

Definition world_of_box (r : raster) : world :=
  mkWorld (fun p => if path_eq_dec p (PUser "bbox.tif") then Some r else None)
          (fun i => if Nat.eq_dec i 0 then Some (BoundingBox (PUser "bbox.tif")) else None)
          0.

(** The box the specification describes, from its own words: the tightest
    rectangle around the non-nodata pixels (columns of [where_ne], first and
    last row holding one), widened by one pixel on each side. *)
Fixpoint data_rows_from (nd : Z) (i : Z) (rows : list (list Z)) : list Z :=
  match rows with
  | [] => []
  | row :: rest =>
      match where_ne nd row with
      | [] => data_rows_from nd (i + 1) rest
      | _ => i :: data_rows_from nd (i + 1) rest
      end
  end.

Definition spec_widened_box (nd : Z) (rows : list (list Z)) : option (list Z) :=
  match data_rows_from nd 0 rows with
  | [] => None
  | y_first :: _ as ys =>
      let xs := List.concat (map (where_ne nd) rows) in
      Some [np_min xs - 1; np_max xs + 1; y_first - 1; last ys y_first + 1]
  end.

(** A 2x3 raster holding nothing but its nodata value. *)
Definition nodata_2x3 : raster := mkRaster [[7; 7; 7]; [7; 7; 7]] 7 (0, 1, 0, 0, 0, -1) GDT_Byte.

(** Object [b] exists and satisfies [P]; [keeps] says [c] preserves this. *)
Definition obj_inv (b : nat) (P : obj -> Prop) (w : world) : Prop :=
  exists o, heap w b = Some o /\ P o.

Definition keeps (b : nat) (P : obj -> Prop) {A} (c : M A) : Prop :=
  forall w, obj_inv b P w -> obj_inv b P (snd (c w)).

(** A cached (truthy) pixel-bounds list is returned without any effect. *)
Definition pb_is (p : list Z) (o : obj) : Prop :=
  o_pb o = Some p /\ truthy_list (Some p) = true.
Definition gb_is (g : list Z) (o : obj) : Prop :=
  o_gb o = Some g /\ truthy_list (Some g) = true.

(** What can happen to the world while a bounding box [b] is alive: its own
    property accesses and crops (with any GDAL windowing routine), nodata
    reads of any layer, and arbitrary changes by the caller to other objects
    and to files. *)
Inductive box_step (b : nat) : world -> world -> Prop :=
| step_pixel w : box_step b w (snd (min_pixel_bounds b w))
| step_geo w : box_step b w (snd (min_geographic_bounds b w))
| step_crop tr l w : box_step b w (snd (crop tr b l w))
| step_nodata i w : box_step b w (snd (nodata_value i w))
| step_obj i o w : i <> b -> box_step b w (mkWorld (fs w) (upd_heap i o (heap w)) (next_tmp w))
| step_file p r w : box_step b w (mkWorld (upd_fs p r (fs w)) (heap w) (next_tmp w)).

Inductive box_steps (b : nat) : world -> world -> Prop :=
| steps_refl w : box_steps b w w
| steps_cons w1 w2 w3 : box_step b w1 w2 -> box_steps b w2 w3 -> box_steps b w1 w3.

(** A 4x4 box whose data pixels form the 2x2 centre square. *)
Definition box_4x4 : raster :=
  mkRaster [[0; 0; 0; 0]; [0; 1; 1; 0]; [0; 1; 1; 0]; [0; 0; 0; 0]] 0 (100, 10, 0, 500, 0, -10)
           GDT_Int16.

(** A windowing routine that returns the raster unchanged. *)
Definition keep_window (r : raster) (_ : list Z) : raster := r.

(** A cached pixel-bounds list, when truthy, has the four entries the
    unpacking in [min_geographic_bounds] expects. *)
Definition pb_shape (o : obj) : Prop :=
  truthy_list (o_pb o) = true ->
  exists x1 x2 y1 y2, o_pb o = Some [x1; x2; y1; y2].

(** The nodata cache of object [j] is empty or holds the nodata value of the
    raster at the object's path. *)
Definition nd_consistent (j : nat) (w : world) : Prop :=
  forall o r, heap w j = Some o -> fs w (o_path o) = Some r ->
    o_nodata o = None \/ o_nodata o = Some (r_nodata r).

(** [c] keeps the world invariant [I]. *)
Definition wkeeps (I : world -> Prop) {A} (c : M A) : Prop :=
  forall w, I w -> I (snd (c w)).

(** Every temporary path at or beyond the counter is still unused: no file
    and no object refers to it. *)
Definition tmp_wf (w : world) : Prop :=
  forall k, (next_tmp w <= k)%nat ->
    fs w (PTmp k) = None /\ forall j o, heap w j = Some o -> o_path o <> PTmp k.

(** A sequence of [crop] calls of box [b] on the layers [ls]. *)
Fixpoint run_crops (tr : raster -> list Z -> raster) (b : nat) (ls : list nat) (w : world)
  : world :=
  match ls with
  | [] => w
  | l :: rest => run_crops tr b rest (snd (crop tr b l w))
  end.

(** Every object of [w] is still there in [w'], with the same identity. *)
Definition ids_same (w w' : world) : Prop :=
  forall j o, heap w j = Some o -> exists o', heap w' j = Some o' /\ same_id o o'.

(** A bounding box (id 0) and a yearly layer (id 1), nothing cached yet. *)
Definition npp_4x4 : raster :=
  mkRaster [[5; 6; 7; 8]; [9; 10; 11; 12]; [13; -1; 15; 16]; [17; 18; 19; 20]] (-1)
           (100, 10, 0, 500, 0, -10) GDT_Int16.

Definition world_box_layer : world :=
  mkWorld (fun p => if path_eq_dec p (PUser "bbox.tif") then Some box_4x4
                    else if path_eq_dec p (PUser "NPP_2001.tif") then Some npp_4x4
                    else None)
          (fun i => if Nat.eq_dec i 0 then Some (BoundingBox (PUser "bbox.tif"))
                    else if Nat.eq_dec i 1
                    then Some (Layer (PUser "NPP_2001.tif") (PyInt 2001) None)
                    else None)
          0.



(** A glob over a run directory holding one file per pattern, and a blend
    that keeps the base layers. *)
Definition glob_run (p : string) : list string :=
  if string_dec p "/run/NPP_*.tif" then ["/run/NPP_2001.tif"%string]
  else if string_dec p "/run/A_*.tif" then ["/run/A_2001.tif"%string]
  else [].

Definition keep_base (a _ : list obj) (_ : BlendMode) : list obj := a.

Definition patterns_ab : list (string * BlendMode) :=
  [("/run/A_*.tif"%string, Add); ("/run/B_*.tif"%string, Subtract)].

(** ** Generic lemmas on the monad *)

Lemma bind_inv {St A B} (c : SM St A) (k : A -> SM St B) w x w'' :
  bind c k w = (Ok x, w'') -> exists a w', c w = (Ok a, w') /\ k a w' = (Ok x, w'').
Proof. unfold bind. destruct (c w) as [[a|e] w']; intros H; [eauto | discriminate]. Qed.

Lemma bind_ok {St A B} (c : SM St A) (k : A -> SM St B) w a w' :
  c w = (Ok a, w') -> bind c k w = k a w'.
Proof. intros H. unfold bind. now rewrite H. Qed.

Lemma get_obj_inv i w o w' :
  get_obj i w = (Ok o, w') -> heap w i = Some o /\ w' = w.
Proof. unfold get_obj. destruct (heap w i); intros H; inversion H; auto. Qed.

Lemma gdal_open_inv e p w r w' :
  gdal_open e p w = (Ok r, w') -> fs w p = Some r /\ w' = w.
Proof. unfold gdal_open. destruct (fs w p); intros H; inversion H; auto. Qed.

Lemma modify_obj_inv i f w u w' :
  modify_obj i f w = (Ok u, w') ->
  exists o, heap w i = Some o /\ w' = mkWorld (fs w) (upd_heap i (f o) (heap w)) (next_tmp w).
Proof. unfold modify_obj. destruct (heap w i) eqn:E; intros H; inversion H; eauto. Qed.

Lemma bind_err {St A B} (c : SM St A) (k : A -> SM St B) w e w' :
  c w = (Err e, w') -> bind c k w = (Err e, w').
Proof. intros H. unfold bind. now rewrite H. Qed.

Lemma ret_inv {St A} (a x : A) (w w' : St) : ret a w = (Ok x, w') -> x = a /\ w' = w.
Proof. unfold ret. intros H. now inversion H. Qed.

Lemma upd_heap_same i o h : upd_heap i o h i = Some o.
Proof. unfold upd_heap. destruct (Nat.eq_dec i i); congruence. Qed.

Lemma upd_heap_other i j o h : j <> i -> upd_heap i o h j = h j.
Proof. unfold upd_heap. destruct (Nat.eq_dec j i); congruence. Qed.

Lemma upd_fs_same p r f : upd_fs p r f p = Some r.
Proof. unfold upd_fs. destruct (path_eq_dec p p); congruence. Qed.

Lemma upd_fs_other p q r f : q <> p -> upd_fs p r f q = f q.
Proof. unfold upd_fs. destruct (path_eq_dec q p); congruence. Qed.

Lemma gdal_calc_inv nb nl nout outfile pa pb w u w' :
  gdal_calc nb nl nout outfile pa pb w = (Ok u, w') ->
  exists A B, fs w pa = Some A /\ fs w pb = Some B /\ dims_eqb A B = true
    /\ w' = mkWorld (upd_fs outfile (calc_raster nb nl nout A B) (fs w)) (heap w) (next_tmp w).
Proof.
  unfold gdal_calc. intros H.
  apply bind_inv in H as (A & w1 & E1 & H). apply gdal_open_inv in E1 as [HA ->].
  apply bind_inv in H as (B & w2 & E2 & H). apply gdal_open_inv in E2 as [HB ->].
  destruct (dims_eqb A B) eqn:Ed; [|discriminate].
  injection H as _ <-. exists A, B. auto.
Qed.

(** ** The nodata cache and the row loop *)

Lemma nodata_value_cached w i o z :
  heap w i = Some o -> o_nodata o = Some z -> nodata_value i w = (Ok z, w).
Proof. intros Hh Hz. unfold nodata_value, bind, get_obj. rewrite Hh, Hz. reflexivity. Qed.

Lemma nodata_value_read w i o r :
  heap w i = Some o -> o_nodata o = None -> fs w (o_path o) = Some r ->
  nodata_value i w =
    (Ok (r_nodata r),
     mkWorld (fs w) (upd_heap i (set_nodata (r_nodata r) o) (heap w)) (next_tmp w)).
Proof.
  intros Hh Hn Hr. unfold nodata_value, bind, get_obj. rewrite Hh, Hn.
  unfold gdal_open. rewrite Hr. unfold modify_obj. rewrite Hh. reflexivity.
Qed.

Lemma scan_rows_cached b rows : forall w o nd i acc,
  heap w b = Some o -> o_nodata o = Some nd ->
  scan_rows b rows i acc w = (Ok (scan_pure nd rows i acc), w).
Proof.
  induction rows as [|row rest IH]; intros w o nd i acc Hh Hn; simpl.
  - reflexivity.
  - rewrite (bind_ok _ _ _ _ _ (nodata_value_cached w b o nd Hh Hn)).
    eapply IH; eauto.
Qed.

(** ** Frames: the box's own bounds computations touch nothing but caches *)

Lemma get_obj_ok i w o : heap w i = Some o -> get_obj i w = (Ok o, w).
Proof. unfold get_obj. now intros ->. Qed.

Lemma gdal_open_ok e p w r : fs w p = Some r -> gdal_open e p w = (Ok r, w).
Proof. unfold gdal_open. now intros ->. Qed.

Lemma frame_refl i w : frame i w w.
Proof.
  split; [reflexivity | split; [reflexivity | split]].
  - reflexivity.
  - intros o H. exists o. repeat split. exact H.
Qed.

Lemma frame_trans i w1 w2 w3 : frame i w1 w2 -> frame i w2 w3 -> frame i w1 w3.
Proof.
  intros (F1 & N1 & O1 & S1) (F2 & N2 & O2 & S2). repeat split.
  - congruence.
  - congruence.
  - intros j Hj. rewrite O2, O1; auto.
  - intros o Ho. destruct (S1 o Ho) as (o1 & H1 & P1 & Y1 & I1 & T1).
    destruct (S2 o1 H1) as (o2 & H2 & P2 & Y2 & I2 & T2).
    exists o2. repeat split; congruence.
Qed.

Lemma frames_ret i {A} (a : A) : frames i (ret a).
Proof. intros w. apply frame_refl. Qed.

Lemma frames_raise i {A} e : frames i (@raise world A e).
Proof. intros w. apply frame_refl. Qed.

Lemma frames_get i j : frames i (get_obj j).
Proof. intros w. unfold get_obj. destruct (heap w j); apply frame_refl. Qed.

Lemma frames_open i e p : frames i (gdal_open e p).
Proof. intros w. unfold gdal_open. destruct (fs w p); apply frame_refl. Qed.

Lemma frames_bind i {A B} (c : M A) (k : A -> M B) :
  frames i c -> (forall a, frames i (k a)) -> frames i (bind c k).
Proof.
  intros Hc Hk w. unfold bind. specialize (Hc w).
  destruct (c w) as [[a|e] w'] eqn:E; simpl in *; [|exact Hc].
  eapply frame_trans; [exact Hc | apply (Hk a w')].
Qed.

Lemma frames_modify i f : (forall o, same_id o (f o)) -> frames i (modify_obj i f).
Proof.
  intros Hf w. unfold modify_obj. destruct (heap w i) eqn:E; [|apply frame_refl].
  simpl. repeat split; auto.
  - intros j Hj. now apply upd_heap_other.
  - intros o' Ho'. rewrite E in Ho'. injection Ho' as <-.
    exists (f o). split; [apply upd_heap_same | apply Hf].
Qed.

Lemma same_id_set_nodata z o : same_id o (set_nodata z o).
Proof. repeat split. Qed.
Lemma same_id_set_pb p o : same_id o (set_pb p o).
Proof. repeat split. Qed.
Lemma same_id_set_gb p o : same_id o (set_gb p o).
Proof. repeat split. Qed.

Ltac frames_tac :=
  repeat match goal with
  | |- frames _ (bind _ _) => apply frames_bind; [| intro]
  | |- frames _ (ret _) => apply frames_ret
  | |- frames _ (raise _) => apply frames_raise
  | |- frames _ (get_obj _) => apply frames_get
  | |- frames _ (gdal_open _ _) => apply frames_open
  | |- frames _ (modify_obj _ (set_nodata _)) =>
      apply frames_modify; intro; apply same_id_set_nodata
  | |- frames _ (modify_obj _ (set_pb _)) =>
      apply frames_modify; intro; apply same_id_set_pb
  | |- frames _ (modify_obj _ (set_gb _)) =>
      apply frames_modify; intro; apply same_id_set_gb
  | |- frames _ (if ?c then _ else _) => destruct c
  | |- frames _ (match ?x with _ => _ end) => destruct x
  end.

Lemma frames_nodata_value i : frames i (nodata_value i).
Proof. unfold nodata_value. frames_tac. Qed.

Lemma frames_scan_rows b rows : forall i acc, frames b (scan_rows b rows i acc).
Proof.
  induction rows as [|row rest IH]; intros i acc; simpl.
  - apply frames_ret.
  - apply frames_bind; [apply frames_nodata_value | intros; apply IH].
Qed.

Lemma frames_min_pixel_bounds b : frames b (min_pixel_bounds b).
Proof.
  unfold min_pixel_bounds. apply frames_bind; [apply frames_get | intros o].
  destruct (truthy_list (o_pb o)); [apply frames_ret|].
  apply frames_bind; [apply frames_open | intros r].
  apply frames_bind; [apply frames_scan_rows | intros [[[x1 x2] y1] y2]].
  frames_tac.
Qed.

Lemma frames_min_geographic_bounds b : frames b (min_geographic_bounds b).
Proof.
  unfold min_geographic_bounds. apply frames_bind; [apply frames_get | intros o].
  destruct (truthy_list (o_gb o)); [apply frames_ret|].
  apply frames_bind; [apply frames_min_pixel_bounds | intros p].
  destruct p as [|x1 [|x2 [|y1 [|y2 [|]]]]]; frames_tac.
Qed.

(** The first access to [min_pixel_bounds] computes [pixel_bounds] over the
    raster at the box's current path, with that raster's nodata value, and
    caches it. *)
Lemma min_pixel_bounds_compute w b o r :
  heap w b = Some o -> truthy_list (o_pb o) = false ->
  fs w (o_path o) = Some r ->
  (o_nodata o = None \/ o_nodata o = Some (r_nodata r)) ->
  exists w' o', min_pixel_bounds b w = (Ok (pixel_bounds (r_nodata r) (r_data r)), w')
    /\ heap w' b = Some o' /\ o_pb o' = Some (pixel_bounds (r_nodata r) (r_data r)).
Proof.
  intros Hh Ht Hr Hn. unfold min_pixel_bounds.
  rewrite (bind_ok _ _ _ _ _ (get_obj_ok _ _ _ Hh)), Ht.
  rewrite (bind_ok _ _ _ _ _ (gdal_open_ok _ _ _ _ Hr)).
  assert (Hs : exists w1 o1, scan_rows b (r_data r) 0 (shape1 (r_data r), 0, 0, 0) w
                = (Ok (scan_pure (r_nodata r) (r_data r) 0 (shape1 (r_data r), 0, 0, 0)), w1)
                /\ heap w1 b = Some o1).
  { destruct (r_data r) as [|row rest]; simpl.
    - exists w, o. split; [reflexivity | exact Hh].
    - destruct Hn as [Hn|Hn].
      + rewrite (bind_ok _ _ _ _ _ (nodata_value_read w b o r Hh Hn Hr)).
        eexists; eexists. split; [eapply scan_rows_cached|]; simpl;
          [apply upd_heap_same | reflexivity | apply upd_heap_same].
      + rewrite (bind_ok _ _ _ _ _ (nodata_value_cached w b o _ Hh Hn)).
        eexists; eexists. split; [eapply scan_rows_cached|]; eauto. }
  destruct Hs as (w1 & o1 & Hs & H1).
  rewrite (bind_ok _ _ _ _ _ Hs). unfold pixel_bounds.
  destruct (scan_pure (r_nodata r) (r_data r) 0 (shape1 (r_data r), 0, 0, 0))
    as [[[x1 x2] y1] y2].
  unfold bind at 1, modify_obj. rewrite H1. simpl.
  do 2 eexists. split; [reflexivity|]. split; [apply upd_heap_same | reflexivity].
Qed.

Lemma where_ne_from_all_nd nd row : forall j,
  Forall (fun v => v = nd) row -> where_ne_from nd j row = [].
Proof.
  induction row as [|v rest IH]; intros j H; simpl; [reflexivity|].
  inversion H; subst. rewrite Z.eqb_refl. now apply IH.
Qed.

Lemma scan_pure_all_nd nd rows : forall i acc,
  Forall (Forall (fun v => v = nd)) rows -> scan_pure nd rows i acc = acc.
Proof.
  induction rows as [|row rest IH]; intros i [[[x1 x2] y1] y2] H; simpl; [reflexivity|].
  inversion H; subst. unfold scan_row, where_ne.
  rewrite where_ne_from_all_nd by assumption. now apply IH.
Qed.

(** ** Claims on the row scan *)

(** C10: for a box whose raster is entirely nodata, [min_pixel_bounds] raises
    no error and returns the degenerate box [W-1, 1, -1, 1], W being the
    raster width: the row scan never updates its accumulators. *)
Theorem min_pixel_bounds_all_nodata w b o r (W : nat) :
  heap w b = Some o -> truthy_list (o_pb o) = false ->
  fs w (o_path o) = Some r ->
  (o_nodata o = None \/ o_nodata o = Some (r_nodata r)) ->
  r_data r <> [] ->
  Forall (fun row => List.length row = W) (r_data r) ->
  Forall (Forall (fun v => v = r_nodata r)) (r_data r) ->
  fst (min_pixel_bounds b w) = Ok [Z.of_nat W - 1; 1; -1; 1].
Proof.
  intros Hh Ht Hr Hn Hne HW Hall.
  destruct (min_pixel_bounds_compute w b o r Hh Ht Hr Hn) as (w' & o' & E & _).
  rewrite E. simpl. unfold pixel_bounds. rewrite scan_pure_all_nd by exact Hall.
  destruct (r_data r) as [|row rest]; [congruence|].
  inversion HW; subst. simpl. repeat f_equal; lia.
Qed.

Lemma min_pixel_bounds_all_nodata_witness :
  fst (min_pixel_bounds 0 (world_of_box nodata_2x3)) = Ok [Z.of_nat 3 - 1; 1; -1; 1].
Proof.
  apply (min_pixel_bounds_all_nodata (world_of_box nodata_2x3) 0
           (BoundingBox (PUser "bbox.tif")) nodata_2x3 3);
    try reflexivity.
  - left. reflexivity.
  - discriminate.
  - repeat constructor.
  - repeat constructor.
Defined.

(** C1 (failing input): on a 2x2 raster whose pixels all carry data, the
    first data row is row 0; the [y_min == 0] sentinel lets row 1 overwrite
    it, so [min_pixel_bounds] returns [-1, 2, 0, 2] instead of the widened
    tight box [-1, 2, -1, 2]. *)
Theorem min_pixel_bounds_top_row_region :
  fst (min_pixel_bounds 0 (world_of_box full_2x2)) = Ok [-1; 2; 0; 2]
  /\ spec_widened_box (r_nodata full_2x2) (r_data full_2x2) = Some [-1; 2; -1; 2].
Proof. split; reflexivity. Qed.

(** ** Invariants of one object kept by the box's operations *)

Lemma keeps_ret b P {A} (a : A) : keeps b P (ret a).
Proof. intros w H. exact H. Qed.
Lemma keeps_raise b P {A} e : keeps b P (@raise world A e).
Proof. intros w H. exact H. Qed.
Lemma keeps_get b P i : keeps b P (get_obj i).
Proof. intros w H. unfold get_obj. destruct (heap w i); exact H. Qed.
Lemma keeps_open b P e p : keeps b P (gdal_open e p).
Proof. intros w H. unfold gdal_open. destruct (fs w p); exact H. Qed.
Lemma keeps_mktmp b P : keeps b P mktmp.
Proof. intros w H. exact H. Qed.
Lemma keeps_write b P p r : keeps b P (gdal_write p r).
Proof. intros w H. exact H. Qed.

Lemma keeps_bind b P {A B} (c : M A) (k : A -> M B) :
  keeps b P c -> (forall a, keeps b P (k a)) -> keeps b P (bind c k).
Proof.
  intros Hc Hk w H. unfold bind. specialize (Hc w H).
  destruct (c w) as [[a|e] w']; simpl in *; [apply Hk|]; exact Hc.
Qed.

Lemma keeps_modify b P i f :
  (forall o, P o -> P (f o)) -> keeps b P (modify_obj i f).
Proof.
  intros Hf w (o & Ho & HP). unfold modify_obj.
  destruct (heap w i) as [oi|] eqn:Ei; simpl; [|exists o; auto].
  destruct (Nat.eq_dec b i) as [->|Hne].
  - exists (f oi). simpl. rewrite upd_heap_same. split; [reflexivity|].
    rewrite Ei in Ho. injection Ho as <-. auto.
  - exists o. simpl. rewrite upd_heap_other by exact Hne. auto.
Qed.

Lemma keeps_calc b P nb nl nout outfile pa pb :
  keeps b P (gdal_calc nb nl nout outfile pa pb).
Proof.
  unfold gdal_calc. apply keeps_bind; [apply keeps_open | intros A].
  apply keeps_bind; [apply keeps_open | intros B].
  destruct (dims_eqb A B); [apply keeps_write | apply keeps_raise].
Qed.

Ltac keeps_tac :=
  repeat match goal with
  | |- keeps _ _ (bind _ _) => apply keeps_bind; [| intro]
  | |- keeps _ _ (ret _) => apply keeps_ret
  | |- keeps _ _ (raise _) => apply keeps_raise
  | |- keeps _ _ (get_obj _) => apply keeps_get
  | |- keeps _ _ (gdal_open _ _) => apply keeps_open
  | |- keeps _ _ mktmp => apply keeps_mktmp
  | |- keeps _ _ (gdal_write _ _) => apply keeps_write
  | |- keeps _ _ (gdal_calc _ _ _ _ _ _) => apply keeps_calc
  | |- keeps _ _ (modify_obj _ _) =>
      apply keeps_modify; let o := fresh "o" in let H := fresh "H" in
      intros o H; cbn in *; tauto
  | |- keeps _ _ (if ?c then _ else _) => destruct c
  | |- keeps _ _ (match ?x with _ => _ end) => destruct x
  end.

Lemma keeps_nodata_value b P i :
  (forall z o, P o -> P (set_nodata z o)) -> keeps b P (nodata_value i).
Proof.
  intros Hz. unfold nodata_value. apply keeps_bind; [apply keeps_get | intros o].
  destruct (o_nodata o); [apply keeps_ret|].
  apply keeps_bind; [apply keeps_open | intros r].
  apply keeps_bind; [apply keeps_modify, Hz | intros; apply keeps_ret].
Qed.

Lemma keeps_scan_rows b P rows :
  (forall z o, P o -> P (set_nodata z o)) ->
  forall i acc, keeps b P (scan_rows b rows i acc).
Proof.
  intros Hz. induction rows as [|row rest IH]; intros i acc; simpl.
  - apply keeps_ret.
  - apply keeps_bind; [apply keeps_nodata_value, Hz | intros; apply IH].
Qed.

(** Any property of the box closed under the cache writes of the bounds
    computation is kept by it. *)
Lemma keeps_min_pixel_bounds b P :
  (forall z o, P o -> P (set_nodata z o)) -> (forall p o, P o -> P (set_pb p o)) ->
  keeps b P (min_pixel_bounds b).
Proof.
  intros Hz Hp. unfold min_pixel_bounds.
  apply keeps_bind; [apply keeps_get | intros o].
  destruct (truthy_list (o_pb o)); [apply keeps_ret|].
  apply keeps_bind; [apply keeps_open | intros r].
  apply keeps_bind; [apply keeps_scan_rows, Hz | intros [[[x1 x2] y1] y2]].
  apply keeps_bind; [apply keeps_modify, Hp | intros; apply keeps_ret].
Qed.

Lemma keeps_min_geographic_bounds b P :
  keeps b P (min_pixel_bounds b) -> (forall g o, P o -> P (set_gb g o)) ->
  keeps b P (min_geographic_bounds b).
Proof.
  intros Hm Hg. unfold min_geographic_bounds.
  apply keeps_bind; [apply keeps_get | intros o].
  destruct (truthy_list (o_gb o)); [apply keeps_ret|].
  apply keeps_bind; [exact Hm | intros p].
  destruct p as [|x1 [|x2 [|y1 [|y2 [|]]]]]; try apply keeps_raise.
  apply keeps_bind; [apply keeps_get | intros o'].
  apply keeps_bind; [apply keeps_open | intros r].
  apply keeps_bind; [apply keeps_modify, Hg | intros; apply keeps_ret].
Qed.

Lemma min_pixel_bounds_cached w b p :
  obj_inv b (pb_is p) w -> min_pixel_bounds b w = (Ok p, w).
Proof.
  intros (o & Ho & Hp & Ht). unfold min_pixel_bounds.
  rewrite (bind_ok _ _ _ _ _ (get_obj_ok _ _ _ Ho)), Hp, Ht. reflexivity.
Qed.

Lemma min_geographic_bounds_cached w b g :
  obj_inv b (gb_is g) w -> min_geographic_bounds b w = (Ok g, w).
Proof.
  intros (o & Ho & Hg & Ht). unfold min_geographic_bounds.
  rewrite (bind_ok _ _ _ _ _ (get_obj_ok _ _ _ Ho)), Hg, Ht. reflexivity.
Qed.

Lemma keeps_pb_min_pixel_bounds b p : keeps b (pb_is p) (min_pixel_bounds b).
Proof. intros w H. now rewrite (min_pixel_bounds_cached w b p H). Qed.

Lemma keeps_gb_min_geographic_bounds b g : keeps b (gb_is g) (min_geographic_bounds b).
Proof. intros w H. now rewrite (min_geographic_bounds_cached w b g H). Qed.

(** A successful bounds access leaves the returned value cached. *)
Lemma min_pixel_bounds_caches w b p w' :
  min_pixel_bounds b w = (Ok p, w') -> obj_inv b (pb_is p) w'.
Proof.
  unfold min_pixel_bounds. intros H.
  apply bind_inv in H as (o & w1 & E1 & H). apply get_obj_inv in E1 as [Ho ->].
  destruct (truthy_list (o_pb o)) eqn:Ht.
  - apply ret_inv in H as [-> ->]. exists o. split; [exact Ho|].
    unfold pb_is, cached. destruct (o_pb o) as [[|? ?]|]; try discriminate. auto.
  - apply bind_inv in H as (r & w2 & E2 & H). apply gdal_open_inv in E2 as [_ ->].
    apply bind_inv in H as ([[[x1 x2] y1] y2] & w3 & E3 & H).
    apply bind_inv in H as (u & w4 & E4 & H). apply ret_inv in H as [-> ->].
    apply modify_obj_inv in E4 as (o3 & Ho3 & ->).
    eexists. split; [apply upd_heap_same|]. split; reflexivity.
Qed.

Lemma min_geographic_bounds_caches w b g w' :
  min_geographic_bounds b w = (Ok g, w') -> obj_inv b (gb_is g) w'.
Proof.
  unfold min_geographic_bounds. intros H.
  apply bind_inv in H as (o & w1 & E1 & H). apply get_obj_inv in E1 as [Ho ->].
  destruct (truthy_list (o_gb o)) eqn:Ht.
  - apply ret_inv in H as [-> ->]. exists o. split; [exact Ho|].
    unfold gb_is, cached. destruct (o_gb o) as [[|? ?]|]; try discriminate. auto.
  - apply bind_inv in H as (p & w2 & E2 & H).
    destruct p as [|x1 [|x2 [|y1 [|y2 [|]]]]]; try discriminate.
    apply bind_inv in H as (o' & w3 & E3 & H). apply get_obj_inv in E3 as [_ ->].
    apply bind_inv in H as (r & w4 & E4 & H). apply gdal_open_inv in E4 as [_ ->].
    apply bind_inv in H as (u & w5 & E5 & H). apply ret_inv in H as [-> ->].
    apply modify_obj_inv in E5 as (o5 & Ho5 & ->).
    eexists. split; [apply upd_heap_same|]. split; [reflexivity|].
    unfold geo_of_pixel. destruct (r_gt r) as [[[[[? ?] ?] ?] ?] ?]. reflexivity.
Qed.

Lemma keeps_crop b P tr l :
  keeps b P (min_geographic_bounds b) ->
  (forall z o, P o -> P (set_nodata z o)) ->
  (forall p o, P o -> P (set_path p o)) ->
  (forall v o, P o -> P (set_init v o)) ->
  keeps b P (crop tr b l).
Proof.
  intros Hg Hz Hpa Hi. unfold crop.
  apply keeps_bind; [apply keeps_get | intros o].
  apply keeps_bind.
  { destruct (negb (o_init o)); [|apply keeps_ret].
    apply keeps_bind; [apply keeps_mktmp | intros bbox_path].
    apply keeps_bind; [exact Hg | intros g].
    apply keeps_bind; [apply keeps_open | intros src].
    apply keeps_bind; [apply keeps_write | intros _].
    apply keeps_bind; [apply keeps_modify, Hpa | intros _].
    apply keeps_modify, Hi. }
  intros _.
  apply keeps_bind; [apply keeps_mktmp | intros tmp_path].
  apply keeps_bind; [apply keeps_get | intros lo].
  apply keeps_bind; [exact Hg | intros g].
  apply keeps_bind; [apply keeps_open | intros src].
  apply keeps_bind; [apply keeps_write | intros _].
  apply keeps_bind; [apply keeps_nodata_value, Hz | intros nb].
  apply keeps_bind; [apply keeps_nodata_value, Hz | intros nl].
  apply keeps_bind; [apply keeps_mktmp | intros output_path].
  apply keeps_bind; [apply keeps_nodata_value, Hz | intros nout].
  apply keeps_bind; [apply keeps_get | intros ob].
  apply keeps_bind; [apply keeps_calc | intros _].
  apply keeps_bind; [apply keeps_get | intros lo'].
  apply keeps_ret.
Qed.

Lemma box_step_keeps b P w w' :
  keeps b P (min_pixel_bounds b) -> keeps b P (min_geographic_bounds b) ->
  (forall z o, P o -> P (set_nodata z o)) ->
  (forall p o, P o -> P (set_path p o)) ->
  (forall v o, P o -> P (set_init v o)) ->
  box_step b w w' -> obj_inv b P w -> obj_inv b P w'.
Proof.
  intros Hm Hg Hz Hpa Hi Hs HP. destruct Hs.
  - now apply Hm.
  - now apply Hg.
  - now apply keeps_crop.
  - now apply keeps_nodata_value.
  - destruct HP as (o' & Ho' & HP). exists o'. simpl.
    rewrite upd_heap_other by congruence. auto.
  - exact HP.
Qed.

Lemma box_steps_keeps b P w w' :
  keeps b P (min_pixel_bounds b) -> keeps b P (min_geographic_bounds b) ->
  (forall z o, P o -> P (set_nodata z o)) ->
  (forall p o, P o -> P (set_path p o)) ->
  (forall v o, P o -> P (set_init v o)) ->
  box_steps b w w' -> obj_inv b P w -> obj_inv b P w'.
Proof.
  intros Hm Hg Hz Hpa Hi Hs. induction Hs as [|w1 w2 w3 H12 H23 IH]; auto.
  intros HP. apply IH. eapply box_step_keeps; eauto.
Qed.

Lemma pb_cached_after_steps b w p w1 w2 :
  min_pixel_bounds b w = (Ok p, w1) -> box_steps b w1 w2 ->
  min_pixel_bounds b w2 = (Ok p, w2).
Proof.
  intros H Hs. apply min_pixel_bounds_cached.
  eapply box_steps_keeps; [| | | | | exact Hs | eapply min_pixel_bounds_caches; exact H].
  - apply keeps_pb_min_pixel_bounds.
  - apply keeps_min_geographic_bounds; [apply keeps_pb_min_pixel_bounds|].
    intros g o Ho. exact Ho.
  - intros z o Ho. exact Ho.
  - intros q o Ho. exact Ho.
  - intros v o Ho. exact Ho.
Qed.

Lemma gb_cached_after_steps b w g w1 w2 :
  min_geographic_bounds b w = (Ok g, w1) -> box_steps b w1 w2 ->
  min_geographic_bounds b w2 = (Ok g, w2).
Proof.
  intros H Hs. apply min_geographic_bounds_cached.
  eapply box_steps_keeps; [| | | | | exact Hs | eapply min_geographic_bounds_caches; exact H].
  - apply keeps_min_pixel_bounds; intros ? o Ho; exact Ho.
  - apply keeps_gb_min_geographic_bounds.
  - intros z o Ho. exact Ho.
  - intros q o Ho. exact Ho.
  - intros v o Ho. exact Ho.
Qed.

(** The first [min_geographic_bounds] access applies the raster's
    geotransform to the pixel bounds it computes (or finds cached). *)
Lemma min_geographic_bounds_first w b o g w' :
  heap w b = Some o -> truthy_list (o_gb o) = false ->
  min_geographic_bounds b w = (Ok g, w') ->
  exists r x_min x_max y_min y_max,
    fs w (o_path o) = Some r
    /\ min_pixel_bounds b w' = (Ok [x_min; x_max; y_min; y_max], w')
    /\ g = geo_of_pixel (r_gt r) x_min x_max y_min y_max.
Proof.
  intros Ho Ht H. unfold min_geographic_bounds in H.
  apply bind_inv in H as (o1 & w1 & E1 & H). apply get_obj_inv in E1 as [Ho1 ->].
  rewrite Ho in Ho1. injection Ho1 as <-. rewrite Ht in H.
  apply bind_inv in H as (p & w2 & E2 & H).
  pose proof (frames_min_pixel_bounds b w) as Fr. rewrite E2 in Fr. simpl in Fr.
  destruct Fr as (Hfs & _ & _ & Hid).
  destruct (Hid o Ho) as (o2 & Ho2 & Hpath & _).
  pose proof (min_pixel_bounds_caches _ _ _ _ E2) as Hc.
  destruct p as [|x1 [|x2 [|y1 [|y2 [|]]]]]; try discriminate.
  apply bind_inv in H as (o' & w3 & E3 & H). apply get_obj_inv in E3 as [Ho' ->].
  rewrite Ho2 in Ho'. injection Ho' as <-.
  apply bind_inv in H as (r & w4 & E4 & H). apply gdal_open_inv in E4 as [Hr ->].
  apply bind_inv in H as (u & w5 & E5 & H). apply ret_inv in H as [-> ->].
  exists r, x1, x2, y1, y2. split; [rewrite <- Hpath, <- Hfs; exact Hr|]. split; [|reflexivity].
  apply min_pixel_bounds_cached.
  pose proof (keeps_modify b (pb_is [x1; x2; y1; y2]) b
                (set_gb (geo_of_pixel (r_gt r) x1 x2 y1 y2))) as Hk.
  specialize (Hk (fun o Hp => Hp) w2 Hc). rewrite E5 in Hk. exact Hk.
Qed.

(** C8: [min_pixel_bounds] and [min_geographic_bounds] are computed on the
    first access only: once an access has returned a value, every later
    access, after any sequence of crops (which replace the backing path),
    other property reads, or changes to other objects and files, returns the
    same value and leaves the world unchanged. *)
Theorem bounds_cached_for_lifetime b :
  (forall w p w1 w2, min_pixel_bounds b w = (Ok p, w1) -> box_steps b w1 w2 ->
     min_pixel_bounds b w2 = (Ok p, w2))
  /\ (forall w g w1 w2, min_geographic_bounds b w = (Ok g, w1) -> box_steps b w1 w2 ->
     min_geographic_bounds b w2 = (Ok g, w2)).
Proof.
  split; intros *; [apply pb_cached_after_steps | apply gb_cached_after_steps].
Qed.

Lemma bounds_cached_for_lifetime_witness :
  min_pixel_bounds 0
    (snd (crop keep_window 0 0 (snd (min_pixel_bounds 0 (world_of_box box_4x4)))))
  = (Ok [0; 3; 0; 3],
     snd (crop keep_window 0 0 (snd (min_pixel_bounds 0 (world_of_box box_4x4)))))
  /\ min_geographic_bounds 0
    (snd (crop keep_window 0 0 (snd (min_geographic_bounds 0 (world_of_box box_4x4)))))
  = (Ok [100; 500; 130; 470],
     snd (crop keep_window 0 0 (snd (min_geographic_bounds 0 (world_of_box box_4x4))))).
Proof.
  split.
  - apply (proj1 (bounds_cached_for_lifetime 0) (world_of_box box_4x4) [0; 3; 0; 3]
             (snd (min_pixel_bounds 0 (world_of_box box_4x4)))).
    + vm_compute. reflexivity.
    + eapply steps_cons; [apply step_crop | apply steps_refl].
  - apply (proj2 (bounds_cached_for_lifetime 0) (world_of_box box_4x4) [100; 500; 130; 470]
             (snd (min_geographic_bounds 0 (world_of_box box_4x4)))).
    + vm_compute. reflexivity.
    + eapply steps_cons; [apply step_crop | apply steps_refl].
Defined.

(** C4: the first access to [min_geographic_bounds] returns the raster's
    geotransform applied to [min_pixel_bounds] ([origin + index * size] on
    each axis, as [x_min_proj, y_min_proj, x_max_proj, y_max_proj]); both
    values then stay cached, so the equation holds at every later access
    too, whatever happens to the box afterwards. *)
Theorem min_geographic_bounds_affine w b o g w' :
  heap w b = Some o -> truthy_list (o_gb o) = false ->
  min_geographic_bounds b w = (Ok g, w') ->
  exists r x_min x_max y_min y_max,
    fs w (o_path o) = Some r
    /\ g = geo_of_pixel (r_gt r) x_min x_max y_min y_max
    /\ forall w2, box_steps b w' w2 ->
         min_pixel_bounds b w2 = (Ok [x_min; x_max; y_min; y_max], w2)
         /\ min_geographic_bounds b w2 = (Ok g, w2).
Proof.
  intros Ho Ht H.
  destruct (min_geographic_bounds_first w b o g w' Ho Ht H)
    as (r & x1 & x2 & y1 & y2 & Hr & Hp & Hg).
  exists r, x1, x2, y1, y2. split; [exact Hr|]. split; [exact Hg|].
  intros w2 Hs. split.
  - eapply pb_cached_after_steps; [exact Hp | exact Hs].
  - eapply gb_cached_after_steps; [exact H | exact Hs].
Qed.

Lemma min_geographic_bounds_affine_witness :
  exists r x_min x_max y_min y_max,
    fs (world_of_box box_4x4) (PUser "bbox.tif") = Some r
    /\ [100; 500; 130; 470] = geo_of_pixel (r_gt r) x_min x_max y_min y_max
    /\ forall w2, box_steps 0 (snd (min_geographic_bounds 0 (world_of_box box_4x4))) w2 ->
         min_pixel_bounds 0 w2 = (Ok [x_min; x_max; y_min; y_max], w2)
         /\ min_geographic_bounds 0 w2 = (Ok [100; 500; 130; 470], w2).
Proof.
  apply (min_geographic_bounds_affine (world_of_box box_4x4) 0
           (BoundingBox (PUser "bbox.tif")) [100; 500; 130; 470]
           (snd (min_geographic_bounds 0 (world_of_box box_4x4)))).
  - reflexivity.
  - reflexivity.
  - vm_compute. reflexivity.
Defined.

(** ** Success of the box's own bounds computation *)

Lemma scan_rows_ok b rows : forall w o r i acc,
  heap w b = Some o -> fs w (o_path o) = Some r ->
  exists acc' w', scan_rows b rows i acc w = (Ok acc', w').
Proof.
  induction rows as [|row rest IH]; intros w o r i acc Ho Hr; simpl.
  - eexists; eexists; reflexivity.
  - destruct (o_nodata o) as [z|] eqn:Hn.
    + rewrite (bind_ok _ _ _ _ _ (nodata_value_cached w b o z Ho Hn)). eauto.
    + rewrite (bind_ok _ _ _ _ _ (nodata_value_read w b o r Ho Hn Hr)).
      eapply IH; [apply upd_heap_same | exact Hr].
Qed.

Lemma min_pixel_bounds_ok w b o r :
  heap w b = Some o -> fs w (o_path o) = Some r -> pb_shape o ->
  exists x1 x2 y1 y2 w', min_pixel_bounds b w = (Ok [x1; x2; y1; y2], w').
Proof.
  intros Ho Hr Hs. unfold min_pixel_bounds.
  rewrite (bind_ok _ _ _ _ _ (get_obj_ok _ _ _ Ho)).
  destruct (truthy_list (o_pb o)) eqn:Ht.
  - destruct (Hs Ht) as (x1 & x2 & y1 & y2 & Hp).
    exists x1, x2, y1, y2, w. unfold ret, cached. now rewrite Hp.
  - rewrite (bind_ok _ _ _ _ _ (gdal_open_ok _ _ _ _ Hr)).
    destruct (scan_rows_ok b (r_data r) w o r 0 (shape1 (r_data r), 0, 0, 0) Ho Hr)
      as ([[[x1 x2] y1] y2] & w1 & E).
    rewrite (bind_ok _ _ _ _ _ E).
    pose proof (frames_scan_rows b (r_data r) 0 (shape1 (r_data r), 0, 0, 0) w) as Fr.
    rewrite E in Fr. simpl in Fr. destruct Fr as (_ & _ & _ & Hid).
    destruct (Hid o Ho) as (o1 & Ho1 & _).
    unfold bind at 1, modify_obj. rewrite Ho1.
    do 5 eexists. reflexivity.
Qed.

Lemma min_geographic_bounds_ok w b o r :
  heap w b = Some o -> fs w (o_path o) = Some r -> pb_shape o ->
  exists g w', min_geographic_bounds b w = (Ok g, w').
Proof.
  intros Ho Hr Hs. unfold min_geographic_bounds.
  rewrite (bind_ok _ _ _ _ _ (get_obj_ok _ _ _ Ho)).
  destruct (truthy_list (o_gb o)); [do 2 eexists; reflexivity|].
  destruct (min_pixel_bounds_ok w b o r Ho Hr Hs) as (x1 & x2 & y1 & y2 & w1 & E).
  rewrite (bind_ok _ _ _ _ _ E).
  pose proof (frames_min_pixel_bounds b w) as Fr. rewrite E in Fr. simpl in Fr.
  destruct Fr as (Hfs & _ & _ & Hid). destruct (Hid o Ho) as (o1 & Ho1 & Hp & _).
  rewrite (bind_ok _ _ _ _ _ (get_obj_ok _ _ _ Ho1)).
  assert (Hr1 : fs w1 (o_path o1) = Some r) by (rewrite Hfs, Hp; exact Hr).
  rewrite (bind_ok _ _ _ _ _ (gdal_open_ok _ _ _ _ Hr1)).
  unfold bind at 1, modify_obj. rewrite Ho1. do 2 eexists. reflexivity.
Qed.

(** ** Nodata caches agree with the rasters they were read from *)

Lemma wkeeps_bind I {A B} (c : M A) (k : A -> M B) :
  wkeeps I c -> (forall a, wkeeps I (k a)) -> wkeeps I (bind c k).
Proof.
  intros Hc Hk w H. unfold bind. specialize (Hc w H).
  destruct (c w) as [[a|e] w']; simpl in *; [apply Hk|]; exact Hc.
Qed.

Lemma wkeeps_ret I {A} (a : A) : wkeeps I (ret a).
Proof. intros w H. exact H. Qed.
Lemma wkeeps_raise I {A} e : wkeeps I (@raise world A e).
Proof. intros w H. exact H. Qed.
Lemma wkeeps_get I i : wkeeps I (get_obj i).
Proof. intros w H. unfold get_obj. destruct (heap w i); exact H. Qed.
Lemma wkeeps_open I e p : wkeeps I (gdal_open e p).
Proof. intros w H. unfold gdal_open. destruct (fs w p); exact H. Qed.

Lemma wkeeps_nd_modify j i f :
  (forall o, o_path (f o) = o_path o /\ o_nodata (f o) = o_nodata o) ->
  wkeeps (nd_consistent j) (modify_obj i f).
Proof.
  intros Hf w H. unfold modify_obj. destruct (heap w i) as [oi|] eqn:Ei; [|exact H].
  simpl. intros o r Ho Hr. simpl in Ho, Hr.
  destruct (Nat.eq_dec j i) as [->|Hne].
  - rewrite upd_heap_same in Ho. injection Ho as <-.
    destruct (Hf oi) as [Hp Hn]. rewrite Hn. rewrite Hp in Hr. exact (H oi r Ei Hr).
  - rewrite upd_heap_other in Ho by exact Hne. exact (H o r Ho Hr).
Qed.

Lemma wkeeps_nd_nodata_value j i : wkeeps (nd_consistent j) (nodata_value i).
Proof.
  intros w H. unfold nodata_value, bind at 1, get_obj.
  destruct (heap w i) as [oi|] eqn:Ei; [|exact H]. simpl.
  destruct (o_nodata oi) eqn:En; [exact H|].
  unfold bind at 1, gdal_open. destruct (fs w (o_path oi)) as [ri|] eqn:Er; [|exact H].
  unfold bind, modify_obj. rewrite Ei. simpl.
  intros o r Ho Hr. simpl in Ho, Hr.
  destruct (Nat.eq_dec j i) as [->|Hne].
  - rewrite upd_heap_same in Ho. injection Ho as <-. simpl in Hr |- *.
    rewrite Er in Hr. injection Hr as <-. right. reflexivity.
  - rewrite upd_heap_other in Ho by exact Hne. exact (H o r Ho Hr).
Qed.

Lemma wkeeps_nd_min_geographic_bounds j b : wkeeps (nd_consistent j) (min_geographic_bounds b).
Proof.
  unfold min_geographic_bounds.
  apply wkeeps_bind; [apply wkeeps_get | intros o].
  destruct (truthy_list (o_gb o)); [apply wkeeps_ret|].
  apply wkeeps_bind.
  - unfold min_pixel_bounds.
    apply wkeeps_bind; [apply wkeeps_get | intros o'].
    destruct (truthy_list (o_pb o')); [apply wkeeps_ret|].
    apply wkeeps_bind; [apply wkeeps_open | intros r].
    apply wkeeps_bind.
    + generalize 0 (shape1 (r_data r), 0, 0, 0).
      induction (r_data r) as [|row rest IH]; intros i acc; simpl; [apply wkeeps_ret|].
      apply wkeeps_bind; [apply wkeeps_nd_nodata_value | intros; apply IH].
    + intros [[[x1 x2] y1] y2].
      apply wkeeps_bind; [apply wkeeps_nd_modify; intros; split; reflexivity
                         | intros; apply wkeeps_ret].
  - intros p. destruct p as [|x1 [|x2 [|y1 [|y2 [|]]]]]; try apply wkeeps_raise.
    apply wkeeps_bind; [apply wkeeps_get | intros o'].
    apply wkeeps_bind; [apply wkeeps_open | intros r].
    apply wkeeps_bind; [apply wkeeps_nd_modify; intros; split; reflexivity
                       | intros; apply wkeeps_ret].
Qed.

(** A successful nodata read returns the value of the raster at the object's
    path, and leaves it cached. *)
Lemma nodata_value_consistent w j o r z w' :
  nd_consistent j w -> heap w j = Some o -> fs w (o_path o) = Some r ->
  nodata_value j w = (Ok z, w') ->
  z = r_nodata r /\ obj_inv j (fun o' => o_nodata o' = Some z) w'.
Proof.
  intros Hc Ho Hr H. destruct (Hc o r Ho Hr) as [Hn|Hn].
  - rewrite (nodata_value_read w j o r Ho Hn Hr) in H. injection H as <- <-.
    split; [reflexivity|]. eexists. split; [apply upd_heap_same | reflexivity].
  - rewrite (nodata_value_cached w j o _ Ho Hn) in H. injection H as <- <-.
    split; [reflexivity|]. exists o. auto.
Qed.

(** ** The self-cropping step of [crop] *)

(** The first [crop] call rewrites the box to a fresh temporary raster and
    then behaves as a call on the self-cropped box. *)
Lemma crop_first_call tr w b o r l :
  heap w b = Some o -> o_init o = false -> fs w (o_path o) = Some r -> pb_shape o ->
  exists g w1 o1,
    heap w1 b = Some o1 /\ o_path o1 = PTmp (next_tmp w) /\ o_init o1 = true
    /\ o_year o1 = o_year o /\ o_interp o1 = o_interp o
    /\ obj_inv b (gb_is g) w1
    /\ fs w1 = upd_fs (PTmp (next_tmp w)) (tr r g) (fs w)
    /\ next_tmp w1 = S (next_tmp w)
    /\ (forall j, j <> b -> heap w1 j = heap w j)
    /\ (nd_consistent b w -> o_nodata o1 = None \/ o_nodata o1 = Some (r_nodata r))
    /\ crop tr b l w = crop tr b l w1.
Proof.
  intros Ho Hi Hr Hs.
  set (n := next_tmp w).
  set (wa := mkWorld (fs w) (heap w) (S n)).
  assert (Hoa : heap wa b = Some o) by exact Ho.
  assert (Hra : fs wa (o_path o) = Some r) by exact Hr.
  destruct (min_geographic_bounds_ok wa b o r Hoa Hra Hs) as (g & wb & Eg).
  pose proof (frames_min_geographic_bounds b wa) as Fr. rewrite Eg in Fr. simpl in Fr.
  destruct Fr as (Fs & Fn & Fo & Fi). destruct (Fi o Hoa) as (ob & Hob & Pb & Yb & Ib & Tb).
  pose proof (min_geographic_bounds_caches _ _ _ _ Eg) as Hg.
  set (o1 := set_init true (set_path (PTmp n) ob)).
  set (w1 := mkWorld (upd_fs (PTmp n) (tr r g) (fs wb))
                     (upd_heap b o1 (upd_heap b (set_path (PTmp n) ob) (heap wb)))
                     (next_tmp wb)).
  assert (Ho1 : heap w1 b = Some o1) by apply upd_heap_same.
  assert (Hbr : (bbox_path <- mktmp ;;
                 g <- min_geographic_bounds b ;;
                 src <- gdal_open ValueError (o_path o) ;;
                 gdal_write bbox_path (tr src g) ;;
                 modify_obj b (set_path bbox_path) ;;
                 modify_obj b (set_init true)) w = (Ok tt, w1)).
  { rewrite (bind_ok _ _ _ _ _ (eq_refl : mktmp w = (Ok (PTmp n), wa))).
    rewrite (bind_ok _ _ _ _ _ Eg).
    assert (Hrb : fs wb (o_path o) = Some r) by (rewrite Fs; exact Hra).
    rewrite (bind_ok _ _ _ _ _ (gdal_open_ok _ _ _ _ Hrb)).
    unfold bind, gdal_write, modify_obj. simpl. rewrite Hob.
    cbn [heap fs next_tmp]. rewrite upd_heap_same. reflexivity. }
  exists g, w1, o1.
  split; [exact Ho1|]. split; [reflexivity|]. split; [reflexivity|].
  split; [exact Yb|]. split; [exact Ib|].
  split.
  { destruct Hg as (og & Hog & Hgg & Hgt). exists o1. split; [exact Ho1|].
    rewrite Hob in Hog. injection Hog as <-. split; assumption. }
  split; [simpl; now rewrite Fs|].
  split; [simpl; now rewrite Fn|].
  split.
  { intros j Hj. simpl. rewrite !upd_heap_other by exact Hj. now apply Fo. }
  split.
  { intros Hc. assert (Hca : nd_consistent b wa) by exact Hc.
    pose proof (wkeeps_nd_min_geographic_bounds b b wa Hca) as Hcb.
    rewrite Eg in Hcb. simpl in Hcb.
    assert (Hrb : fs wb (o_path ob) = Some r) by (rewrite Fs, Pb; exact Hra).
    exact (Hcb ob r Hob Hrb). }
  unfold crop at 1. rewrite (bind_ok _ _ _ _ _ (get_obj_ok _ _ _ Ho)), Hi.
  cbn [negb]. rewrite (bind_ok _ _ _ _ _ Hbr).
  unfold crop. rewrite (bind_ok _ _ _ _ _ (get_obj_ok _ _ _ Ho1)).
  cbn [o1 set_init o_init negb]. reflexivity.
Qed.

(** Once the box is self-cropped, [crop] keeps every property of the box
    that its cache writes keep. *)
Lemma crop_selfcropped_keeps tr b l P w o :
  (forall z o, P o -> P (set_nodata z o)) ->
  (forall p o, P o -> P (set_pb p o)) ->
  (forall g o, P o -> P (set_gb g o)) ->
  heap w b = Some o -> o_init o = true -> P o ->
  obj_inv b P (snd (crop tr b l w)).
Proof.
  intros Hz Hp Hg Ho Hi HP. unfold crop.
  rewrite (bind_ok _ _ _ _ _ (get_obj_ok _ _ _ Ho)), Hi. cbn [negb].
  rewrite (bind_ok _ _ _ tt w (eq_refl : ret tt w = (Ok tt, w))).
  match goal with |- obj_inv _ _ (snd (?c w)) => assert (Hk : keeps b P c) end.
  { keeps_tac; try (apply keeps_nodata_value; exact Hz);
      apply keeps_min_geographic_bounds; [apply keeps_min_pixel_bounds|]; assumption. }
  apply Hk. exists o. auto.
Qed.

Lemma run_crops_selfcropped tr b p ls : forall w,
  obj_inv b (fun o => o_path o = p /\ o_init o = true) w ->
  obj_inv b (fun o => o_path o = p /\ o_init o = true) (run_crops tr b ls w).
Proof.
  induction ls as [|l rest IH]; intros w (o & Ho & Hp & Hi); simpl.
  - exists o. auto.
  - apply IH. eapply crop_selfcropped_keeps; eauto; intros ? ? H'; exact H'.
Qed.

(** C3: the self-cropping of a bounding box happens exactly once.  On the
    first [crop] call (flag unset, backing raster readable) the box's path is
    replaced by a fresh temporary raster, different from the old path, and
    the flag is set; every later [crop] call, on any layers, leaves that path
    and the flag unchanged. *)
Theorem crop_self_initializes_once tr w b o r l :
  heap w b = Some o -> o_init o = false -> fs w (o_path o) = Some r -> pb_shape o ->
  tmp_wf w ->
  exists p1, p1 <> o_path o
    /\ forall ls, obj_inv b (fun o1 => o_path o1 = p1 /\ o_init o1 = true)
                    (run_crops tr b ls (snd (crop tr b l w))).
Proof.
  intros Ho Hi Hr Hs Hwf.
  destruct (crop_first_call tr w b o r l Ho Hi Hr Hs)
    as (g & w1 & o1 & Ho1 & Hp1 & Hi1 & _ & _ & _ & _ & _ & _ & _ & Ec).
  exists (PTmp (next_tmp w)). split.
  - intros Heq. rewrite <- Heq, (proj1 (Hwf (next_tmp w) (le_n _))) in Hr. discriminate.
  - intros ls. apply run_crops_selfcropped. rewrite Ec.
    eapply crop_selfcropped_keeps; eauto; try (intros ? ? H'; exact H').
Qed.

Lemma crop_self_initializes_once_witness :
  exists p1, p1 <> PUser "bbox.tif"
    /\ forall ls, obj_inv 0 (fun o1 => o_path o1 = p1 /\ o_init o1 = true)
                    (run_crops keep_window 0 ls
                       (snd (crop keep_window 0 0 (world_of_box box_4x4)))).
Proof.
  apply (crop_self_initializes_once keep_window (world_of_box box_4x4) 0
           (BoundingBox (PUser "bbox.tif")) box_4x4 0);
    try reflexivity.
  - intros H. discriminate H.
  - intros k _. split; [reflexivity|].
    intros j o Ho. simpl in Ho. destruct (Nat.eq_dec j 0); [|discriminate].
    injection Ho as <-. discriminate.
Defined.

(** ** The data flow of [crop] once the box is self-cropped *)

Lemma frame_heap i w w' j o :
  frame i w w' -> heap w j = Some o -> exists o', heap w' j = Some o' /\ same_id o o'.
Proof.
  intros (_ & _ & Ho & Hi) Hj. destruct (Nat.eq_dec j i) as [->|Hne].
  - exact (Hi o Hj).
  - exists o. rewrite Ho by exact Hne. split; [exact Hj | repeat split].
Qed.

Lemma same_id_trans o1 o2 o3 : same_id o1 o2 -> same_id o2 o3 -> same_id o1 o3.
Proof. unfold same_id. intros (? & ? & ? & ?) (? & ? & ? & ?). repeat split; congruence. Qed.

Lemma frame_ids_same i w w' : frame i w w' -> ids_same w w'.
Proof. intros F j o Hj. exact (frame_heap i w w' j o F Hj). Qed.

Lemma ids_same_trans w1 w2 w3 : ids_same w1 w2 -> ids_same w2 w3 -> ids_same w1 w3.
Proof.
  intros H12 H23 j o Hj. destruct (H12 j o Hj) as (o2 & H2 & S2).
  destruct (H23 j o2 H2) as (o3 & H3 & S3). exists o3. split; [exact H3|].
  eapply same_id_trans; eauto.
Qed.

Lemma frame_of {A} i (c : M A) w a w' :
  frames i c -> c w = (Ok a, w') -> frame i w w'.
Proof. intros Hc E. specialize (Hc w). rewrite E in Hc. exact Hc. Qed.

Lemma nodata_value_caches w j z w' :
  nodata_value j w = (Ok z, w') -> obj_inv j (fun o => o_nodata o = Some z) w'.
Proof.
  unfold nodata_value. intros H.
  apply bind_inv in H as (o & w1 & E1 & H). apply get_obj_inv in E1 as [Ho ->].
  destruct (o_nodata o) eqn:En.
  - apply ret_inv in H as [-> ->]. exists o. auto.
  - apply bind_inv in H as (r & w2 & E2 & H). apply gdal_open_inv in E2 as [_ ->].
    apply bind_inv in H as (u & w3 & E3 & H). apply ret_inv in H as [-> ->].
    apply modify_obj_inv in E3 as (o3 & Ho3 & ->).
    eexists. split; [apply upd_heap_same | reflexivity].
Qed.

Lemma ids_same_heap w w' : heap w' = heap w -> ids_same w w'.
Proof. intros E j o Hj. exists o. rewrite E. split; [exact Hj | repeat split]. Qed.

Lemma nd_consistent_write j w p r N :
  nd_consistent j w -> (forall o, heap w j = Some o -> o_path o <> p) ->
  nd_consistent j (mkWorld (upd_fs p r (fs w)) (heap w) N).
Proof.
  intros H Hp o r' Ho Hr. simpl in Ho, Hr.
  rewrite upd_fs_other in Hr by exact (Hp o Ho). exact (H o r' Ho Hr).
Qed.

Lemma nd_consistent_heap j w w' :
  heap w' = heap w -> fs w' = fs w -> nd_consistent j w -> nd_consistent j w'.
Proof. intros Eh Ef H o r Ho Hr. rewrite Eh in Ho. rewrite Ef in Hr. exact (H o r Ho Hr). Qed.

Lemma crop_selfcropped_ok tr w b l ob out w' :
  heap w b = Some ob -> o_init ob = true -> tmp_wf w ->
  crop tr b l w = (Ok out, w') ->
  exists lo src g nb nl bb,
    heap w l = Some lo /\ fs w (o_path lo) = Some src
    /\ out = Layer (PTmp (S (next_tmp w))) (o_year lo) (o_interp lo)
    /\ fs w (o_path ob) = Some bb
    /\ fs w' = upd_fs (PTmp (S (next_tmp w))) (calc_raster nb nl nl (tr src g) bb)
                 (upd_fs (PTmp (next_tmp w)) (tr src g) (fs w))
    /\ next_tmp w' = S (S (next_tmp w))
    /\ ids_same w w'
    /\ (forall j, j <> b -> j <> l -> heap w' j = heap w j)
    /\ obj_inv b (gb_is g) w'
    /\ (nd_consistent b w -> nb = r_nodata bb)
    /\ (nd_consistent l w -> nl = r_nodata src).
Proof.
  intros Hob Hi Hwf H.
  unfold crop in H.
  apply bind_inv in H as (o0 & w0 & E0 & H). apply get_obj_inv in E0 as [Ho0 ->].
  rewrite Hob in Ho0. injection Ho0 as <-. rewrite Hi in H. cbn [negb] in H.
  apply bind_inv in H as (u & w0 & E0 & H). apply ret_inv in E0 as [_ ->].
  (* tmp_path <- mktmp *)
  apply bind_inv in H as (tmp_path & wa & Ea & H). injection Ea as <- <-.
  (* lo <- get_obj l *)
  apply bind_inv in H as (lo & w1 & E1 & H). apply get_obj_inv in E1 as [Hlo ->].
  (* g <- min_geographic_bounds *)
  apply bind_inv in H as (g & wb & Eb & H).
  pose proof (frame_of _ _ _ _ _ (frames_min_geographic_bounds b) Eb) as Fb.
  pose proof (min_geographic_bounds_caches _ _ _ _ Eb) as Gb.
  assert (Kb : forall j, nd_consistent j (mkWorld (fs w) (heap w) (S (next_tmp w))) -> nd_consistent j wb).
  { intros j X. pose proof (wkeeps_nd_min_geographic_bounds j b _ X) as Y.
    rewrite Eb in Y. exact Y. }
  (* src <- gdal.Open(layer.path), used by gdal.Translate *)
  apply bind_inv in H as (src & w1 & E1 & H). apply gdal_open_inv in E1 as [Hsrc ->].
  (* gdal_write tmp_path *)
  apply bind_inv in H as (u1 & wc & Ec & H). injection Ec as _ <-.
  (* nb <- self.nodata_value *)
  apply bind_inv in H as (nb & wd & Ed & H).
  pose proof (frame_of _ _ _ _ _ (frames_nodata_value b) Ed) as Fd.
  (* nl <- layer.nodata_value *)
  apply bind_inv in H as (nl & we & Ee & H).
  pose proof (frame_of _ _ _ _ _ (frames_nodata_value l) Ee) as Fe.
  pose proof (nodata_value_caches _ _ _ _ Ee) as Ce.
  (* output_path <- mktmp *)
  apply bind_inv in H as (output_path & wf & Ef & H). injection Ef as <- <-.
  (* nout <- layer.nodata_value (cached) *)
  apply bind_inv in H as (nout & wg & Eg & H).
  destruct Ce as (lc & Hlc & Hnl).
  rewrite (nodata_value_cached (mkWorld (fs we) (heap we) (S (next_tmp we))) l lc nl Hlc Hnl) in Eg. injection Eg as <- <-.
  (* ob' <- self; a <- open tmp; bb <- open self.path *)
  apply bind_inv in H as (ob' & w2 & E2 & H). apply get_obj_inv in E2 as [Hob' ->].
  apply bind_inv in H as (u2 & wh & Eh & H).
  apply gdal_calc_inv in Eh as (a & bb & Ha & Hbb & _ & ->).
  apply bind_inv in H as (lo' & w2 & E2 & H). apply get_obj_inv in E2 as [Hlo' ->].
  apply ret_inv in H as [-> ->].
  pose proof Fb as Fb'. pose proof Fd as Fd'. pose proof Fe as Fe'.
  destruct Fb as (Fbs & Fbn & Fbo & Fbi). destruct Fd as (Fds & Fdn & Fdo & Fdi).
  destruct Fe as (Fes & Fen & Feo & Fei).
  simpl in *. rewrite Fbs in Hsrc.
  set (wc := mkWorld (upd_fs (PTmp (next_tmp w)) (tr src g) (fs wb)) (heap wb) (next_tmp wb)) in *.
  assert (I0 : ids_same w wd).
  { eapply ids_same_trans; [apply ids_same_heap; reflexivity|].
    eapply ids_same_trans; [exact (frame_ids_same _ _ _ Fb')|].
    eapply ids_same_trans; [apply ids_same_heap; reflexivity|].
    exact (frame_ids_same _ _ _ Fd'). }
  assert (I1 : ids_same w we).
  { eapply ids_same_trans; [exact I0 | exact (frame_ids_same _ _ _ Fe')]. }
  assert (Hnb : next_tmp we = S (next_tmp w)) by (rewrite Fen, Fdn, Fbn; reflexivity).
  assert (Hfd : fs wd = upd_fs (PTmp (next_tmp w)) (tr src g) (fs w))
    by (rewrite Fds; simpl; rewrite Fbs; reflexivity).
  assert (Hfe : fs we = upd_fs (PTmp (next_tmp w)) (tr src g) (fs w))
    by (rewrite Fes; exact Hfd).
  rewrite Hfe, upd_fs_same in Ha. injection Ha as <-.
  destruct (I1 b ob Hob) as (ob2 & Hob2 & Pob & _).
  rewrite Hob' in Hob2. injection Hob2 as <-.
  pose proof (proj2 (Hwf (next_tmp w) (le_n _)) b ob Hob) as Hpob.
  rewrite Hfe, Pob, upd_fs_other in Hbb by exact Hpob.
  destruct (I1 l lo Hlo) as (lo2 & Hlo2 & Plo & Ylo & Ilo & _).
  rewrite Hlo' in Hlo2. injection Hlo2 as <-.
  assert (Hnot : forall j o, heap wb j = Some o -> o_path o <> PTmp (next_tmp w)).
  { intros j o Hj. destruct (Nat.eq_dec j b) as [->|Hne].
    - destruct (Fbi ob Hob) as (o' & Ho' & Po' & _). rewrite Hj in Ho'.
      injection Ho' as <-. rewrite Po'. exact Hpob.
    - rewrite Fbo in Hj by exact Hne. exact (proj2 (Hwf (next_tmp w) (le_n _)) j o Hj). }
  assert (Kc : forall j, nd_consistent j w -> nd_consistent j wc).
  { intros j Hc. apply nd_consistent_write; [| intros o Ho; exact (Hnot j o Ho)].
    apply Kb. eapply nd_consistent_heap; [reflexivity | reflexivity | exact Hc]. }
  exists lo, src, g, nb, nl, bb.
  split; [exact Hlo|]. split; [exact Hsrc|].
  split; [rewrite Hnb, Ylo, Ilo; reflexivity|].
  split; [exact Hbb|].
  split; [rewrite Hnb, Hfe; reflexivity|].
  split; [rewrite Hnb; reflexivity|].
  split; [eapply ids_same_trans; [exact I1 | apply ids_same_heap; reflexivity]|].
  split; [intros j Hjb Hjl; rewrite Feo, Fdo, Fbo by assumption; reflexivity|].
  split.
  { assert (Gc : obj_inv b (gb_is g) wc) by exact Gb.
    pose proof (keeps_nodata_value b (gb_is g) b (fun z o H => H) wc Gc) as Gd.
    rewrite Ed in Gd. simpl in Gd.
    pose proof (keeps_nodata_value b (gb_is g) l (fun z o H => H) wd Gd) as Ge.
    rewrite Ee in Ge. exact Ge. }
  split.
  { intros Hc. destruct (Fbi ob Hob) as (obc & Hobc & Pobc & _).
    assert (Hfc : fs wc (o_path obc) = Some bb).
    { simpl. rewrite Pobc, upd_fs_other by exact Hpob. rewrite Fbs. exact Hbb. }
    exact (proj1 (nodata_value_consistent wc b obc bb nb wd (Kc b Hc) Hobc Hfc Ed)). }
  { intros Hc. pose proof (wkeeps_nd_nodata_value l b wc (Kc l Hc)) as Hd.
    rewrite Ed in Hd. simpl in Hd.
    destruct (I0 l lo Hlo) as (lod & Hlod & Plod & _).
    assert (Hfl : fs wd (o_path lod) = Some src).
    { rewrite Hfd, Plod, upd_fs_other; [exact Hsrc|].
      exact (proj2 (Hwf (next_tmp w) (le_n _)) l lo Hlo). }
    exact (proj1 (nodata_value_consistent wd l lod src nl we Hd Hlod Hfl Ee)). }
Qed.

(** Any [crop] call behaves as a call on a self-cropped box, in a world that
    differs from the caller's only in the box and in fresh temporary files. *)
Lemma crop_to_selfcropped tr w b ob r l :
  heap w b = Some ob -> fs w (o_path ob) = Some r -> pb_shape ob -> tmp_wf w ->
  exists w1 ob1,
    heap w1 b = Some ob1 /\ o_init ob1 = true /\ tmp_wf w1
    /\ (exists r1, fs w1 (o_path ob1) = Some r1
         /\ ((forall s g, r_nodata (tr s g) = r_nodata s) -> r_nodata r1 = r_nodata r))
    /\ (next_tmp w <= next_tmp w1)%nat
    /\ (forall j, j <> b -> heap w1 j = heap w j)
    /\ (forall p, (forall k, (next_tmp w <= k)%nat -> p <> PTmp k) -> fs w1 p = fs w p)
    /\ ((forall s g, r_nodata (tr s g) = r_nodata s) ->
        forall j, nd_consistent j w -> nd_consistent j w1)
    /\ crop tr b l w = crop tr b l w1.
Proof.
  intros Ho Hr Hs Hwf. destruct (o_init ob) eqn:Hi.
  - exists w, ob. split; [exact Ho|]. split; [exact Hi|]. split; [exact Hwf|].
    split; [exists r; split; [exact Hr | reflexivity]|].
    split; [lia|]. split; [reflexivity|]. split; [reflexivity|].
    split; [intros _ j Hc; exact Hc | reflexivity].
  - destruct (crop_first_call tr w b ob r l Ho Hi Hr Hs)
      as (g & w1 & o1 & Ho1 & Hp1 & Hi1 & _ & _ & _ & Hf1 & Hn1 & Hh1 & Hnd1 & Ec).
    exists w1, o1. split; [exact Ho1|]. split; [exact Hi1|].
    split.
    { intros k Hk. rewrite Hn1 in Hk. split.
      - rewrite Hf1, upd_fs_other by (intros E; injection E; lia).
        apply (Hwf k). lia.
      - intros j o Hj. destruct (Nat.eq_dec j b) as [->|Hne].
        + rewrite Ho1 in Hj. injection Hj as <-. rewrite Hp1.
          intros E; injection E; lia.
        + rewrite Hh1 in Hj by exact Hne. apply (proj2 (Hwf k ltac:(lia)) j o Hj). }
    split.
    { exists (tr r g). split; [rewrite Hf1, Hp1; apply upd_fs_same | intros Htr; apply Htr]. }
    split; [rewrite Hn1; lia|].
    split; [exact Hh1|].
    split.
    { intros p Hp. rewrite Hf1, upd_fs_other; [reflexivity|]. apply Hp. lia. }
    split; [|exact Ec].
    intros Htr j Hc o r' Hj Hr'. destruct (Nat.eq_dec j b) as [->|Hne].
    + rewrite Ho1 in Hj. injection Hj as <-.
      rewrite Hf1, Hp1, upd_fs_same in Hr'. injection Hr' as <-.
      rewrite Htr. exact (Hnd1 Hc).
    + rewrite Hh1 in Hj by exact Hne.
      rewrite Hf1, upd_fs_other in Hr' by exact (proj2 (Hwf _ (le_n _)) j o Hj).
      exact (Hc o r' Hj Hr').
Qed.






Ltac fresh_world_tac :=
  intros k _; split; [reflexivity|];
  intros j o Ho; cbn in Ho;
  repeat (destruct (Nat.eq_dec _ _) in Ho; [injection Ho as <-; discriminate|]);
  discriminate.

Ltac no_cache_tac :=
  intros o r' Ho _; left; cbn in Ho; injection Ho as <-; reflexivity.






(** ** The composite construction *)

Lemma fold_found_layers xs : forall c,
  fold_left (fun c layer_path =>
               let year := last4 (splitext_root layer_path) in
               coll_append c (Layer (PUser layer_path) (PyStr year) None)) xs c
  = mkColl (c_id c)
      (c_layers c ++ map (fun layer_path =>
                            Layer (PUser layer_path) (PyStr (last4 (splitext_root layer_path)))
                                  None) xs).
Proof.
  induction xs as [|x xs IH]; intros [i ls]; simpl.
  - now rewrite app_nil_r.
  - rewrite IH. simpl. now rewrite <- app_assoc.
Qed.

Lemma find_layers_eq glob pattern w :
  find_layers glob pattern w
  = let layers :=
        mkColl (cw_next_id w)
          (map (fun layer_path =>
                  Layer (PUser layer_path) (PyStr (last4 (splitext_root layer_path))) None)
               (glob pattern)) in
    let w1 := mkCW (cw_ci w) (S (cw_next_id w)) (cw_blends w) in
    if negb (coll_truthy layers) then (Err (IOError (no_output_msg pattern)), w1)
    else (Ok layers, w1).
Proof.
  unfold find_layers, bind, new_coll, raise, ret. cbn beta iota zeta.
  rewrite fold_found_layers. cbn [c_id c_layers app].
  destruct (coll_truthy _); reflexivity.
Qed.

Lemma find_layers_none glob pattern w :
  glob pattern = [] ->
  find_layers glob pattern w
  = (Err (IOError (no_output_msg pattern)), mkCW (cw_ci w) (S (cw_next_id w)) (cw_blends w)).
Proof. intros H. rewrite find_layers_eq, H. reflexivity. Qed.

Lemma find_layers_some glob pattern w :
  glob pattern <> [] ->
  exists layers, coll_truthy layers = true
    /\ find_layers glob pattern w
       = (Ok layers, mkCW (cw_ci w) (S (cw_next_id w)) (cw_blends w)).
Proof.
  intros H. rewrite find_layers_eq. destruct (glob pattern) as [|x xs]; [congruence|].
  eexists. split; [|reflexivity]. reflexivity.
Qed.

(** The loop reaches a pattern without matches after one [blend] per earlier
    pattern, each blending in a non-empty collection, and stops there. *)
Lemma blend_patterns_missing glob bl pre p m post : forall w c,
  ci_composite (cw_ci w) = Some c ->
  Forall (fun pm => glob (fst pm) <> []) pre -> glob p = [] ->
  exists bs,
    fst (blend_patterns glob bl (pre ++ (p, m) :: post) w) = Err (IOError (no_output_msg p))
    /\ cw_blends (snd (blend_patterns glob bl (pre ++ (p, m) :: post) w)) = cw_blends w ++ bs
    /\ List.length bs = List.length pre
    /\ Forall (fun '(_, other, _) => coll_truthy other = true) bs.
Proof.
  induction pre as [|[q mq] pre IH]; intros w c Hc Hpre Hp; simpl.
  - exists []. rewrite (bind_err _ _ _ _ _ (find_layers_none glob p w Hp)).
    rewrite app_nil_r. repeat split; constructor.
  - inversion Hpre as [|? ? Hq Hpre']; subst. simpl in Hq.
    destruct (find_layers_some glob q w Hq) as (layers & Ht & E).
    rewrite (bind_ok _ _ _ _ _ E).
    unfold bind, get_ci, blend, set_composite. cbn [cw_ci cw_blends cw_next_id].
    rewrite Hc.
    match goal with
    | |- exists bs, fst (blend_patterns _ _ _ ?w') = _ /\ _ => set (w3 := w')
    end.
    destruct (IH w3 _ eq_refl Hpre' Hp) as (bs & Herr & Hbs & Hlen & Hall).
    exists ((c, layers, mq) :: bs). split; [exact Herr|].
    split; [rewrite Hbs; simpl; now rewrite <- app_assoc|].
    split; [simpl; now rewrite Hlen|].
    constructor; [exact Ht | exact Hall].
Qed.

(** C5 (failing input): with an empty patterns mapping the composite is an
    empty [LayerCollection], which is falsy, so every [render_map_frames]
    call builds a new one: the first call renders collection 0, the second
    collection 1, whatever the file system and the blend. *)
Theorem render_map_frames_rebuilds_empty_composite glob bl :
  fst (render_map_frames glob bl (fresh_ci [])) = Ok (mkColl 0 [])
  /\ fst (render_map_frames glob bl (snd (render_map_frames glob bl (fresh_ci []))))
     = Ok (mkColl 1 []).
Proof. split; reflexivity. Qed.

(** C6 (counterexample): when the first pattern matches a file and the
    second matches none, [_init] fails with the IOError naming the second
    pattern, but only after one [blend] call for the first pattern. *)
Lemma ci_init_blends_before_missing_pattern :
  fst (ci_init glob_run keep_base (fresh_ci patterns_ab))
  = Err (IOError (no_output_msg "/run/B_*.tif"%string))
  /\ List.length (cw_blends (snd (ci_init glob_run keep_base (fresh_ci patterns_ab)))) = 1%nat.
Proof. split; vm_compute; reflexivity. Qed.

(** C6: when composite construction runs and the first pattern (in the
    mapping's order) without any match is [p], [_init] fails with the
    IOError naming [p]; the [blend] calls made before are exactly one per
    earlier pattern, each blending in a non-empty collection, so no empty
    collection is ever blended into the composite. *)
Theorem ci_init_missing_pattern_error glob bl w pre p m post :
  composite_truthy (ci_composite (cw_ci w)) = false ->
  ci_patterns (cw_ci w) = pre ++ (p, m) :: post ->
  Forall (fun pm => glob (fst pm) <> []) pre -> glob p = [] ->
  fst (ci_init glob bl w) = Err (IOError (no_output_msg p))
  /\ exists bs, cw_blends (snd (ci_init glob bl w)) = cw_blends w ++ bs
       /\ List.length bs = List.length pre
       /\ Forall (fun '(_, other, _) => coll_truthy other = true) bs.
Proof.
  intros Ht Hps Hpre Hp.
  set (w2 := mkCW (mkCI (ci_patterns (cw_ci w)) (Some (mkColl (cw_next_id w) []))
                        (ci_provider (cw_ci w)))
                  (S (cw_next_id w)) (cw_blends w)).
  destruct (blend_patterns_missing glob bl pre p m post w2 _ eq_refl Hpre Hp)
    as (bs & Herr & Hbs & Hlen & Hall).
  destruct (blend_patterns glob bl (pre ++ (p, m) :: post) w2) as [res w'] eqn:Eb.
  simpl in Herr, Hbs. subst res.
  assert (E : ci_init glob bl w = (Err (IOError (no_output_msg p)), w')).
  { unfold ci_init.
    rewrite (bind_ok _ _ _ _ _ (eq_refl : get_ci w = (Ok (cw_ci w), w))), Ht. cbn [negb].
    rewrite (bind_ok _ _ _ _ _
               (eq_refl : new_coll w = (Ok (mkColl (cw_next_id w) []),
                                        mkCW (cw_ci w) (S (cw_next_id w)) (cw_blends w)))).
    rewrite (bind_ok _ _ _ _ _
               (eq_refl : set_composite (mkColl (cw_next_id w) [])
                            (mkCW (cw_ci w) (S (cw_next_id w)) (cw_blends w)) = (Ok tt, w2))).
    rewrite Hps. rewrite (bind_err _ _ _ _ _ Eb). reflexivity. }
  rewrite E. split; [reflexivity|]. exists bs. split; [exact Hbs|]. split; assumption.
Qed.

Lemma ci_init_missing_pattern_error_witness :
  fst (ci_init glob_run keep_base (fresh_ci patterns_ab))
  = Err (IOError (no_output_msg "/run/B_*.tif"%string))
  /\ exists bs, cw_blends (snd (ci_init glob_run keep_base (fresh_ci patterns_ab)))
                = cw_blends (fresh_ci patterns_ab) ++ bs
       /\ List.length bs = List.length [("/run/A_*.tif"%string, Add)]
       /\ Forall (fun '(_, other, _) => coll_truthy other = true) bs.
Proof.
  apply (ci_init_missing_pattern_error glob_run keep_base (fresh_ci patterns_ab)
           [("/run/A_*.tif"%string, Add)] "/run/B_*.tif"%string Subtract []).
  - reflexivity.
  - reflexivity.
  - constructor; [|constructor]. intros H. vm_compute in H. discriminate H.
  - vm_compute. reflexivity.
Defined.

(** ** The row scan in closed form *)

Lemma fold_min_shift l : forall a b,
  fold_left Z.min l (Z.min a b) = Z.min a (fold_left Z.min l b).
Proof.
  induction l as [|x l IH]; intros a b; simpl; [reflexivity|].
  rewrite <- Z.min_assoc. apply IH.
Qed.

Lemma fold_max_shift l : forall a b,
  fold_left Z.max l (Z.max a b) = Z.max a (fold_left Z.max l b).
Proof.
  induction l as [|x l IH]; intros a b; simpl; [reflexivity|].
  rewrite <- Z.max_assoc. apply IH.
Qed.

Lemma fold_min_le l : forall b, fold_left Z.min l b <= b.
Proof. induction l as [|x l IH]; intros b; simpl; [lia|]. specialize (IH (Z.min b x)). lia. Qed.

Lemma fold_max_ge l : forall b, b <= fold_left Z.max l b.
Proof. induction l as [|x l IH]; intros b; simpl; [lia|]. specialize (IH (Z.max b x)). lia. Qed.

Lemma last_cons_default {X} (l : list X) : forall a d, last (a :: l) d = last l a.
Proof.
  induction l as [|x l IH]; intros a d; [reflexivity|].
  change (last (x :: l) d = last (x :: l) a). rewrite !IH. reflexivity.
Qed.

Lemma fold_sentinel_set ys : forall a, a <> 0 ->
  fold_left (fun a y => if a =? 0 then y else a) ys a = a.
Proof.
  induction ys as [|y ys IH]; intros a Ha; simpl; [reflexivity|].
  replace (a =? 0) with false by (symmetry; apply Z.eqb_neq; exact Ha). now apply IH.
Qed.

Lemma fold_sentinel ys :
  fold_left (fun a y => if a =? 0 then y else a) ys 0 = hd 0 (filter (fun y => negb (y =? 0)) ys).
Proof.
  induction ys as [|y ys IH]; simpl; [reflexivity|].
  destruct (Z.eqb_spec y 0) as [->|Hy]; simpl; [exact IH|].
  now apply fold_sentinel_set.
Qed.

(** The scan keeps the running minimum and maximum of the data columns, the
    last data row, and a [y_min] that only the [0] sentinel lets move. *)
Lemma scan_pure_closed nd rows : forall i xm xM ym yM,
  scan_pure nd rows i (xm, xM, ym, yM) =
  (fold_left Z.min (List.concat (map (where_ne nd) rows)) xm,
   fold_left Z.max (List.concat (map (where_ne nd) rows)) xM,
   fold_left (fun a y => if a =? 0 then y else a) (data_rows_from nd i rows) ym,
   last (data_rows_from nd i rows) yM).
Proof.
  induction rows as [|row rest IH]; intros i xm xM ym yM; simpl; [reflexivity|].
  unfold scan_row. destruct (where_ne nd row) as [|x xs] eqn:E.
  - simpl. apply IH.
  - rewrite IH. unfold np_min, np_max.
    replace (if fold_left Z.min xs x <? xm then fold_left Z.min xs x else xm)
      with (Z.min xm (fold_left Z.min xs x))
      by (destruct (Z.ltb_spec (fold_left Z.min xs x) xm); lia).
    replace (if fold_left Z.max xs x >? xM then fold_left Z.max xs x else xM)
      with (Z.max xM (fold_left Z.max xs x))
      by (destruct (Z.gtb_spec (fold_left Z.max xs x) xM); lia).
    rewrite !fold_left_app. cbn [fold_left].
    rewrite (fold_min_shift xs xm x), (fold_max_shift xs xM x), last_cons_default.
    reflexivity.
Qed.

Lemma where_ne_from_range nd row : forall j x,
  In x (where_ne_from nd j row) -> j <= x < j + Z.of_nat (List.length row).
Proof.
  induction row as [|v rest IH]; intros j x H; simpl in H; [contradiction|].
  cbn [List.length]. rewrite Nat2Z.inj_succ.
  destruct (v =? nd); [apply IH in H; lia|].
  destruct H as [<-|H]; [lia|]. apply IH in H. lia.
Qed.

Lemma data_rows_nonempty nd rows : forall i,
  data_rows_from nd i rows <> [] -> List.concat (map (where_ne nd) rows) <> [].
Proof.
  induction rows as [|row rest IH]; intros i H; simpl in *; [congruence|].
  destruct (where_ne nd row) as [|x xs]; simpl; [exact (IH _ H) | discriminate].
Qed.

(** The result of [min_pixel_bounds] on a rectangular raster holding some
    data, in closed form. *)
Lemma min_pixel_bounds_closed w b o r W :
  heap w b = Some o -> truthy_list (o_pb o) = false -> fs w (o_path o) = Some r ->
  (o_nodata o = None \/ o_nodata o = Some (r_nodata r)) ->
  Forall (fun row => List.length row = W) (r_data r) ->
  data_rows_from (r_nodata r) 0 (r_data r) <> [] ->
  fst (min_pixel_bounds b w) =
  Ok [np_min (List.concat (map (where_ne (r_nodata r)) (r_data r))) - 1;
      np_max (List.concat (map (where_ne (r_nodata r)) (r_data r))) + 1;
      hd 0 (filter (fun y => negb (y =? 0)) (data_rows_from (r_nodata r) 0 (r_data r))) - 1;
      last (data_rows_from (r_nodata r) 0 (r_data r)) 0 + 1].
Proof.
  intros Hh Ht Hr Hn HW Hd.
  destruct (min_pixel_bounds_compute w b o r Hh Ht Hr Hn) as (w' & o' & E & _).
  rewrite E. simpl. unfold pixel_bounds.
  pose proof (data_rows_nonempty _ _ 0 Hd) as Hx.
  set (nd := r_nodata r) in *. set (rows := r_data r) in *.
  assert (Hs : shape1 rows = Z.of_nat W).
  { destruct rows as [|row rest]; [simpl in Hd; congruence|].
    inversion HW; subst. reflexivity. }
  assert (Hrange : forall x, In x (List.concat (map (where_ne nd) rows)) -> 0 <= x < Z.of_nat W).
  { intros x Hin. apply in_concat in Hin as (l & Hl & Hin).
    apply in_map_iff in Hl as (row & <- & Hrow).
    rewrite Forall_forall in HW. rewrite <- (HW row Hrow).
    apply where_ne_from_range in Hin. lia. }
  rewrite scan_pure_closed, fold_sentinel, Hs.
  destruct (List.concat (map (where_ne nd) rows)) as [|x xs] eqn:Exs; [congruence|].
  simpl. unfold np_min, np_max.
  rewrite fold_min_shift, fold_max_shift.
  pose proof (fold_min_le xs x). pose proof (fold_max_ge xs x).
  pose proof (Hrange x (or_introl eq_refl)).
  replace (Z.min (Z.of_nat W) (fold_left Z.min xs x)) with (fold_left Z.min xs x) by lia.
  replace (Z.max 0 (fold_left Z.max xs x)) with (fold_left Z.max xs x) by lia.
  reflexivity.
Qed.

(** [min_pixel_bounds] on a rectangular raster holding some data: the data
    columns' minimum and maximum widened by one, the last data row plus one,
    and for [y_min] the first data row other than row 0 (or 0 when there is
    none), minus one. *)
Theorem min_pixel_bounds_exact w b o r W :
  heap w b = Some o -> truthy_list (o_pb o) = false -> fs w (o_path o) = Some r ->
  (o_nodata o = None \/ o_nodata o = Some (r_nodata r)) ->
  Forall (fun row => List.length row = W) (r_data r) ->
  data_rows_from (r_nodata r) 0 (r_data r) <> [] ->
  fst (min_pixel_bounds b w) =
  Ok [np_min (List.concat (map (where_ne (r_nodata r)) (r_data r))) - 1;
      np_max (List.concat (map (where_ne (r_nodata r)) (r_data r))) + 1;
      hd 0 (filter (fun y => negb (y =? 0)) (data_rows_from (r_nodata r) 0 (r_data r))) - 1;
      last (data_rows_from (r_nodata r) 0 (r_data r)) 0 + 1].
Proof. exact (min_pixel_bounds_closed w b o r W). Qed.

Lemma min_pixel_bounds_exact_witness :
  fst (min_pixel_bounds 0 (world_of_box box_4x4)) =
  Ok [np_min (List.concat (map (where_ne (r_nodata box_4x4)) (r_data box_4x4))) - 1;
      np_max (List.concat (map (where_ne (r_nodata box_4x4)) (r_data box_4x4))) + 1;
      hd 0 (filter (fun y => negb (y =? 0)) (data_rows_from (r_nodata box_4x4) 0 (r_data box_4x4)))
        - 1;
      last (data_rows_from (r_nodata box_4x4) 0 (r_data box_4x4)) 0 + 1].
Proof.
  apply (min_pixel_bounds_exact (world_of_box box_4x4) 0 (BoundingBox (PUser "bbox.tif"))
           box_4x4 4).
  - reflexivity.
  - reflexivity.
  - reflexivity.
  - left. reflexivity.
  - repeat constructor.
  - intros H. vm_compute in H. discriminate H.
Defined.

(** When row 0 holds no data, [min_pixel_bounds] of a rectangular raster with
    some data is exactly the tightest rectangle around its data pixels,
    widened by one pixel on each side. *)
Theorem min_pixel_bounds_widened_box w b o r W :
  heap w b = Some o -> truthy_list (o_pb o) = false -> fs w (o_path o) = Some r ->
  (o_nodata o = None \/ o_nodata o = Some (r_nodata r)) ->
  Forall (fun row => List.length row = W) (r_data r) ->
  data_rows_from (r_nodata r) 0 (r_data r) <> [] ->
  ~ In 0 (data_rows_from (r_nodata r) 0 (r_data r)) ->
  exists p, spec_widened_box (r_nodata r) (r_data r) = Some p
    /\ fst (min_pixel_bounds b w) = Ok p.
Proof.
  intros Hh Ht Hr Hn HW Hd H0.
  rewrite (min_pixel_bounds_closed w b o r W Hh Ht Hr Hn HW Hd).
  unfold spec_widened_box.
  destruct (data_rows_from (r_nodata r) 0 (r_data r)) as [|y ys] eqn:E; [congruence|].
  eexists. split; [reflexivity|].
  assert (Hy : y <> 0) by (intros ->; apply H0; left; reflexivity).
  simpl. replace (negb (y =? 0)) with true by (symmetry; apply negb_true_iff, Z.eqb_neq, Hy).
  simpl. destruct ys as [|y' ys']; [reflexivity|].
  rewrite !last_cons_default. reflexivity.
Qed.

Lemma min_pixel_bounds_widened_box_witness :
  exists p, spec_widened_box (r_nodata box_4x4) (r_data box_4x4) = Some p
    /\ fst (min_pixel_bounds 0 (world_of_box box_4x4)) = Ok p.
Proof.
  apply (min_pixel_bounds_widened_box (world_of_box box_4x4) 0 (BoundingBox (PUser "bbox.tif"))
           box_4x4 4).
  - reflexivity.
  - reflexivity.
  - reflexivity.
  - left. reflexivity.
  - repeat constructor.
  - intros H. vm_compute in H. discriminate H.
  - vm_compute. intros [H|[H|[]]]; discriminate H.
Defined.

(** ** What one [crop] call changes *)

(** The self-cropping step in both cases, with the temporary files it takes
    and the path the box ends up with. *)
Lemma crop_start tr w b ob r l :
  heap w b = Some ob -> fs w (o_path ob) = Some r -> pb_shape ob -> tmp_wf w ->
  exists w1 ob1,
    heap w1 b = Some ob1 /\ o_init ob1 = true /\ tmp_wf w1
    /\ next_tmp w1 = (next_tmp w + if o_init ob then 0 else 1)%nat
    /\ o_path ob1 = (if o_init ob then o_path ob else PTmp (next_tmp w))
    /\ (forall j, j <> b -> heap w1 j = heap w j)
    /\ (forall p, (forall k, (next_tmp w <= k)%nat -> p <> PTmp k) -> fs w1 p = fs w p)
    /\ crop tr b l w = crop tr b l w1.
Proof.
  intros Ho Hr Hs Hwf. destruct (o_init ob) eqn:Hi.
  - exists w, ob. split; [exact Ho|]. split; [exact Hi|]. split; [exact Hwf|].
    split; [lia|]. split; [reflexivity|]. split; [reflexivity|].
    split; reflexivity.
  - destruct (crop_first_call tr w b ob r l Ho Hi Hr Hs)
      as (g & w1 & o1 & Ho1 & Hp1 & Hi1 & _ & _ & _ & Hf1 & Hn1 & Hh1 & _ & Ec).
    exists w1, o1. split; [exact Ho1|]. split; [exact Hi1|].
    split.
    { intros k Hk. rewrite Hn1 in Hk. split.
      - rewrite Hf1, upd_fs_other by (intros E; injection E; lia).
        apply (Hwf k). lia.
      - intros j o Hj. destruct (Nat.eq_dec j b) as [->|Hne].
        + rewrite Ho1 in Hj. injection Hj as <-. rewrite Hp1.
          intros E; injection E; lia.
        + rewrite Hh1 in Hj by exact Hne. apply (proj2 (Hwf k ltac:(lia)) j o Hj). }
    split; [rewrite Hn1; lia|].
    split; [exact Hp1|].
    split; [exact Hh1|].
    split; [|exact Ec].
    intros p Hp. rewrite Hf1, upd_fs_other; [reflexivity|]. apply Hp. lia.
Qed.

(** A successful [crop] keeps every temporary path beyond the counter
    unused. *)
Lemma crop_tmp_wf tr w b ob r l out w' :
  heap w b = Some ob -> fs w (o_path ob) = Some r -> pb_shape ob -> tmp_wf w ->
  crop tr b l w = (Ok out, w') -> tmp_wf w'.
Proof.
  intros Ho Hr Hs Hwf H.
  destruct (crop_start tr w b ob r l Ho Hr Hs Hwf)
    as (w1 & ob1 & Ho1 & Hi1 & Hwf1 & _ & _ & _ & _ & Ec).
  rewrite Ec in H.
  destruct (crop_selfcropped_ok tr w1 b l ob1 out w' Ho1 Hi1 Hwf1 H)
    as (lo & src & g & nb & nl & bb & Hlo & _ & _ & _ & Hfs' & Hn' & Hid & Hh' & _).
  set (m := next_tmp w1) in *.
  intros k Hk. rewrite Hn' in Hk. split.
  - rewrite Hfs', !upd_fs_other by (intros E; injection E; lia).
    apply (Hwf1 k). lia.
  - intros j o Hj.
    destruct (Nat.eq_dec j b) as [->|Hb]; [|destruct (Nat.eq_dec j l) as [->|Hl]].
    + destruct (Hid b ob1 Ho1) as (o' & Ho' & Po' & _).
      rewrite Ho' in Hj. injection Hj as <-. rewrite Po'.
      apply (proj2 (Hwf1 k ltac:(lia)) b ob1 Ho1).
    + destruct (Hid l lo Hlo) as (o' & Ho' & Po' & _).
      rewrite Ho' in Hj. injection Hj as <-. rewrite Po'.
      apply (proj2 (Hwf1 k ltac:(lia)) l lo Hlo).
    + rewrite Hh' in Hj by assumption. apply (proj2 (Hwf1 k ltac:(lia)) j o Hj).
Qed.

(** [crop] takes three fresh temporary files on its first call (the
    self-cropped box, the windowed input and the output) and two on every
    later call; it keeps every temporary path beyond the counter unused,
    leaves every file that existed before the call as it was, and changes no
    object other than the box and the input layer. *)
Theorem crop_effects tr w b ob r l out w' :
  heap w b = Some ob -> fs w (o_path ob) = Some r -> pb_shape ob -> tmp_wf w ->
  crop tr b l w = (Ok out, w') ->
  next_tmp w' = (next_tmp w + if o_init ob then 2 else 3)%nat
  /\ tmp_wf w'
  /\ (forall p, fs w p <> None -> fs w' p = fs w p)
  /\ (forall j, j <> b -> j <> l -> heap w' j = heap w j).
Proof.
  intros Ho Hr Hs Hwf H. pose proof H as H0.
  destruct (crop_start tr w b ob r l Ho Hr Hs Hwf)
    as (w1 & ob1 & Ho1 & Hi1 & Hwf1 & Hn1 & _ & Hh1 & Hf1 & Ec).
  rewrite Ec in H.
  destruct (crop_selfcropped_ok tr w1 b l ob1 out w' Ho1 Hi1 Hwf1 H)
    as (lo & src & g & nb & nl & bb & Hlo & _ & _ & _ & Hfs' & Hn' & Hid & Hh' & _).
  set (m := next_tmp w1) in *.
  split; [rewrite Hn', Hn1; destruct (o_init ob); lia|].
  split; [exact (crop_tmp_wf tr w b ob r l out w' Ho Hr Hs Hwf H0)|].
  split.
  { intros p Hp.
    assert (Hfresh : forall k, (next_tmp w <= k)%nat -> p <> PTmp k).
    { intros k Hk ->. apply Hp, (Hwf k Hk). }
    rewrite Hfs', !upd_fs_other by (apply Hfresh; destruct (o_init ob); lia).
    apply Hf1, Hfresh. }
  intros j Hb Hl. rewrite Hh' by assumption. apply Hh1, Hb.
Qed.

Lemma crop_effects_witness :
  next_tmp (snd (crop keep_window 0 1 world_box_layer)) = 3%nat
  /\ tmp_wf (snd (crop keep_window 0 1 world_box_layer))
  /\ (forall p, fs world_box_layer p <> None ->
        fs (snd (crop keep_window 0 1 world_box_layer)) p = fs world_box_layer p)
  /\ (forall j, j <> 0%nat -> j <> 1%nat ->
        heap (snd (crop keep_window 0 1 world_box_layer)) j = heap world_box_layer j).
Proof.
  apply (crop_effects keep_window world_box_layer 0 (BoundingBox (PUser "bbox.tif"))
           box_4x4 1 (Layer (PTmp 2) (PyInt 2001) None)
           (snd (crop keep_window 0 1 world_box_layer))).
  - reflexivity.
  - reflexivity.
  - intros H. discriminate H.
  - fresh_world_tac.
  - vm_compute. reflexivity.
Defined.

(** ** A successful composite construction *)

(** When every pattern matches a file, the loop makes one [blend] per
    pattern, in order, each blending the running composite with the layers
    found for that pattern, and ends with the left fold of these blends. *)
Lemma blend_patterns_all glob bl ps : forall w c,
  ci_composite (cw_ci w) = Some c ->
  Forall (fun pm => glob (fst pm) <> []) ps ->
  exists w' c' bs,
    blend_patterns glob bl ps w = (Ok tt, w')
    /\ ci_patterns (cw_ci w') = ci_patterns (cw_ci w)
    /\ ci_provider (cw_ci w') = ci_provider (cw_ci w)
    /\ ci_composite (cw_ci w') = Some c'
    /\ c_layers c' =
       fold_left (fun acc '(p, m) =>
                    bl acc (map (fun layer_path =>
                                   Layer (PUser layer_path)
                                         (PyStr (last4 (splitext_root layer_path))) None)
                                (glob p)) m) ps (c_layers c)
    /\ cw_blends w' = cw_blends w ++ bs
    /\ map (fun '(_, other, m) => (c_layers other, m)) bs
       = map (fun '(p, m) =>
                (map (fun layer_path =>
                        Layer (PUser layer_path) (PyStr (last4 (splitext_root layer_path))) None)
                     (glob p), m)) ps.
Proof.
  induction ps as [|[q mq] ps IH]; intros w c Hc Hps; simpl.
  - exists w, c, []. rewrite app_nil_r. repeat split; assumption.
  - inversion Hps as [|? ? Hq Hps']; subst. simpl in Hq.
    assert (E : find_layers glob q w
                = (Ok (mkColl (cw_next_id w)
                         (map (fun layer_path =>
                                 Layer (PUser layer_path)
                                       (PyStr (last4 (splitext_root layer_path))) None)
                              (glob q))),
                   mkCW (cw_ci w) (S (cw_next_id w)) (cw_blends w))).
    { rewrite find_layers_eq. cbn zeta. destruct (glob q); [congruence|reflexivity]. }
    rewrite (bind_ok _ _ _ _ _ E).
    unfold bind, get_ci, blend, set_composite. cbn [cw_ci cw_blends cw_next_id c_layers].
    rewrite Hc.
    match goal with
    | |- exists w' c' bs, blend_patterns _ _ _ ?w3 = _ /\ _ => set (w2 := w3)
    end.
    destruct (IH w2 _ eq_refl Hps')
      as (w' & c' & bs & Eb & Hpat & Hprov & Hcomp & Hlay & Hbs & Hmap).
    exists w', c', ((c, mkColl (cw_next_id w)
                         (map (fun layer_path =>
                                 Layer (PUser layer_path)
                                       (PyStr (last4 (splitext_root layer_path))) None)
                              (glob q)), mq) :: bs).
    split; [exact Eb|]. split; [exact Hpat|]. split; [exact Hprov|].
    split; [exact Hcomp|]. split; [exact Hlay|].
    split; [rewrite Hbs; simpl; now rewrite <- app_assoc|].
    simpl. now rewrite Hmap.
Qed.

(** When composite construction runs and every pattern matches at least one
    file, [_init] succeeds: the composite is the left fold, over the
    patterns in the mapping's order, of [blend] applied to the running
    layers (starting from an empty collection) and the layers found for the
    pattern, one layer per file in [glob]'s order; one [blend] call is made
    per pattern, in order, blending in exactly these layers with the
    pattern's mode; and the results provider receives the composite's
    layers. *)
Theorem ci_init_builds_composite glob bl w :
  composite_truthy (ci_composite (cw_ci w)) = false ->
  Forall (fun pm => glob (fst pm) <> []) (ci_patterns (cw_ci w)) ->
  fst (ci_init glob bl w) = Ok tt
  /\ exists c bs,
       ci_composite (cw_ci (snd (ci_init glob bl w))) = Some c
       /\ c_layers c =
          fold_left (fun acc '(p, m) =>
                       bl acc (map (fun layer_path =>
                                      Layer (PUser layer_path)
                                            (PyStr (last4 (splitext_root layer_path))) None)
                                   (glob p)) m) (ci_patterns (cw_ci w)) []
       /\ ci_provider (cw_ci (snd (ci_init glob bl w))) = Some (c_layers c)
       /\ cw_blends (snd (ci_init glob bl w)) = cw_blends w ++ bs
       /\ map (fun '(_, other, m) => (c_layers other, m)) bs
          = map (fun '(p, m) =>
                   (map (fun layer_path =>
                           Layer (PUser layer_path)
                                 (PyStr (last4 (splitext_root layer_path))) None)
                        (glob p), m)) (ci_patterns (cw_ci w)).
Proof.
  intros Ht Hall.
  set (w2 := mkCW (mkCI (ci_patterns (cw_ci w)) (Some (mkColl (cw_next_id w) []))
                        (ci_provider (cw_ci w)))
                  (S (cw_next_id w)) (cw_blends w)).
  destruct (blend_patterns_all glob bl (ci_patterns (cw_ci w)) w2 _ eq_refl Hall)
    as (w' & c' & bs & Eb & _ & _ & Hcomp & Hlay & Hbs & Hmap).
  assert (E : ci_init glob bl w
              = (Ok tt, mkCW (mkCI (ci_patterns (cw_ci w')) (ci_composite (cw_ci w'))
                                   (Some (c_layers c')))
                             (cw_next_id w') (cw_blends w'))).
  { unfold ci_init.
    rewrite (bind_ok _ _ _ _ _ (eq_refl : get_ci w = (Ok (cw_ci w), w))), Ht. cbn [negb].
    rewrite (bind_ok _ _ _ _ _
               (eq_refl : new_coll w = (Ok (mkColl (cw_next_id w) []),
                                        mkCW (cw_ci w) (S (cw_next_id w)) (cw_blends w)))).
    rewrite (bind_ok _ _ _ _ _
               (eq_refl : set_composite (mkColl (cw_next_id w) [])
                            (mkCW (cw_ci w) (S (cw_next_id w)) (cw_blends w)) = (Ok tt, w2))).
    rewrite (bind_ok _ _ _ _ _ Eb).
    rewrite (bind_ok _ _ _ _ _ (eq_refl : get_ci w' = (Ok (cw_ci w'), w'))).
    rewrite Hcomp. unfold set_provider. rewrite Hcomp. reflexivity. }
  rewrite E. split; [reflexivity|].
  exists c', bs. cbn [cw_ci ci_composite ci_provider cw_blends].
  split; [exact Hcomp|]. split; [exact Hlay|]. split; [reflexivity|].
  split; [exact Hbs | exact Hmap].
Qed.

(** Two patterns each matching one file, and a blend that concatenates. *)
Lemma ci_init_builds_composite_witness :
  fst (ci_init glob_run (fun a b _ => a ++ b)
         (fresh_ci [("/run/NPP_*.tif"%string, Add); ("/run/A_*.tif"%string, Subtract)]))
  = Ok tt
  /\ exists c bs,
       ci_composite (cw_ci (snd (ci_init glob_run (fun a b _ => a ++ b)
         (fresh_ci [("/run/NPP_*.tif"%string, Add); ("/run/A_*.tif"%string, Subtract)]))))
       = Some c
       /\ c_layers c =
          fold_left (fun acc '(p, m) =>
                       (fun a b _ => a ++ b) acc
                         (map (fun layer_path =>
                                 Layer (PUser layer_path)
                                       (PyStr (last4 (splitext_root layer_path))) None)
                              (glob_run p)) m)
            [("/run/NPP_*.tif"%string, Add); ("/run/A_*.tif"%string, Subtract)] []
       /\ ci_provider (cw_ci (snd (ci_init glob_run (fun a b _ => a ++ b)
            (fresh_ci [("/run/NPP_*.tif"%string, Add); ("/run/A_*.tif"%string, Subtract)]))))
          = Some (c_layers c)
       /\ cw_blends (snd (ci_init glob_run (fun a b _ => a ++ b)
            (fresh_ci [("/run/NPP_*.tif"%string, Add); ("/run/A_*.tif"%string, Subtract)])))
          = [] ++ bs
       /\ map (fun '(_, other, m) => (c_layers other, m)) bs
          = map (fun '(p, m) =>
                   (map (fun layer_path =>
                           Layer (PUser layer_path)
                                 (PyStr (last4 (splitext_root layer_path))) None)
                        (glob_run p), m))
              [("/run/NPP_*.tif"%string, Add); ("/run/A_*.tif"%string, Subtract)].
Proof.
  apply (ci_init_builds_composite glob_run (fun a b _ => a ++ b)
           (fresh_ci [("/run/NPP_*.tif"%string, Add); ("/run/A_*.tif"%string, Subtract)])).
  - reflexivity.
  - repeat constructor; intros H; vm_compute in H; discriminate H.
Defined.

(** Once the composite is a non-empty collection, [render_map_frames]
    returns that very collection and changes nothing: no [glob], no new
    collection and no [blend] call. *)
Theorem render_map_frames_memo glob bl w c :
  ci_composite (cw_ci w) = Some c -> coll_truthy c = true ->
  render_map_frames glob bl w = (Ok c, w).
Proof.
  intros Hc Ht.
  assert (Ei : ci_init glob bl w = (Ok tt, w)).
  { unfold ci_init.
    rewrite (bind_ok _ _ _ _ _ (eq_refl : get_ci w = (Ok (cw_ci w), w))).
    rewrite Hc. cbn [composite_truthy]. rewrite Ht. reflexivity. }
  unfold render_map_frames. rewrite (bind_ok _ _ _ _ _ Ei).
  rewrite (bind_ok _ _ _ _ _ (eq_refl : get_ci w = (Ok (cw_ci w), w))).
  rewrite Hc. reflexivity.
Qed.

(** The indicator left by one successful construction over one matching
    pattern is returned as is on the next call. *)
Lemma render_map_frames_memo_witness :
  render_map_frames glob_run (fun a b _ => a ++ b)
    (snd (render_map_frames glob_run (fun a b _ => a ++ b)
            (fresh_ci [("/run/NPP_*.tif"%string, Add)])))
  = (Ok (mkColl 2 [Layer (PUser "/run/NPP_2001.tif") (PyStr "2001") None]),
     snd (render_map_frames glob_run (fun a b _ => a ++ b)
            (fresh_ci [("/run/NPP_*.tif"%string, Add)]))).
Proof.
  apply render_map_frames_memo.
  - vm_compute. reflexivity.
  - reflexivity.
Defined.

(** ** The year of a found layer *)

Lemma rfind_from_app c s t : forall i acc,
  rfind_from c (s ++ t) i acc
  = rfind_from c t (i + Z.of_nat (List.length s)) (rfind_from c s i acc).
Proof.
  induction s as [|x s IH]; intros i acc; simpl.
  - now rewrite Z.add_0_r.
  - rewrite IH. f_equal. lia.
Qed.

Lemma rfind_from_absent c t : forall i acc, ~ In c t -> rfind_from c t i acc = acc.
Proof.
  induction t as [|x t IH]; intros i acc Hn; simpl; [reflexivity|].
  destruct (Ascii.eqb_spec x c) as [->|_]; [exfalso; apply Hn; left; reflexivity|].
  apply IH. intros H. apply Hn. right. exact H.
Qed.

Lemma rfind_from_range c s : forall i acc, acc < i ->
  acc <= rfind_from c s i acc < i + Z.of_nat (List.length s).
Proof.
  induction s as [|x s IH]; intros i acc Hlt; simpl; [lia|].
  specialize (IH (i + 1) (if Ascii.eqb x c then i else acc)).
  destruct (Ascii.eqb x c); lia.
Qed.

(** For a path [q ++ y ++ "." ++ e] whose last four characters before the
    extension are [y], with no path separator or dot in [y] and none in the
    extension [e], [_find_layers] takes [y] as the layer's year, whatever
    the directories and the rest of the file name in [q] hold. *)
Theorem find_layers_year_of_stem q y e :
  List.length y = 4%nat ->
  (forall c, In c y -> c <> "/"%char /\ c <> "."%char) ->
  (forall c, In c e -> c <> "/"%char /\ c <> "."%char) ->
  last4 (splitext_root (string_of_list_ascii (q ++ y ++ "."%char :: e)))
  = string_of_list_ascii y.
Proof.
  intros Hy Hyc Hec.
  unfold splitext_root, rfind. rewrite list_ascii_of_string_of_list_ascii.
  set (lq := List.length q).
  set (a := rfind_from "/"%char q 0 (-1)).
  assert (Ha : -1 <= a < Z.of_nat lq).
  { pose proof (rfind_from_range "/"%char q 0 (-1) ltac:(lia)). unfold a, lq. lia. }
  assert (Hsep : rfind_from "/"%char (q ++ y ++ "."%char :: e) 0 (-1) = a).
  { rewrite rfind_from_app. apply rfind_from_absent.
    intros Hin. apply in_app_or in Hin as [Hin|[Hin|Hin]].
    - exact (proj1 (Hyc _ Hin) eq_refl).
    - discriminate Hin.
    - exact (proj1 (Hec _ Hin) eq_refl). }
  assert (Hdot : rfind_from "."%char (q ++ y ++ "."%char :: e) 0 (-1) = Z.of_nat lq + 4).
  { rewrite !rfind_from_app.
    rewrite (rfind_from_absent "."%char y) by (intros Hin; exact (proj2 (Hyc _ Hin) eq_refl)).
    simpl. rewrite rfind_from_absent by (intros Hin; exact (proj2 (Hec _ Hin) eq_refl)).
    fold lq. rewrite Hy. lia. }
  rewrite Hsep, Hdot.
  replace (a <? Z.of_nat lq + 4) with true by (symmetry; apply Z.ltb_lt; lia).
  set (k := Z.to_nat (a + 1)).
  assert (Hk : Z.of_nat k = a + 1) by (unfold k; lia).
  replace (Z.to_nat (Z.of_nat lq + 4 - (a + 1))) with (lq - k + 4)%nat by lia.
  rewrite skipn_app.
  replace (k - List.length q)%nat with 0%nat by (fold lq; lia).
  rewrite skipn_O, firstn_app, length_skipn.
  replace (lq - k + 4 - (List.length q - k))%nat with 4%nat by (fold lq; lia).
  rewrite firstn_app, Hy, Nat.sub_diag, firstn_O, app_nil_r.
  replace (firstn 4 y) with y by (rewrite <- Hy; symmetry; apply firstn_all).
  destruct y as [|c0 y'] eqn:Ey; [discriminate Hy|].
  replace (existsb (fun c => negb (Ascii.eqb c "."%char))
             (firstn (lq - k + 4) (skipn k q) ++ c0 :: y')) with true.
  2:{ symmetry. apply existsb_exists. exists c0. split.
      - apply in_or_app. right. left. reflexivity.
      - destruct (Ascii.eqb_spec c0 "."%char) as [E|_]; [|reflexivity].
        exfalso. exact (proj2 (Hyc c0 (or_introl eq_refl)) E). }
  replace (Z.to_nat (Z.of_nat lq + 4)) with (lq + 4)%nat by lia.
  rewrite firstn_app. fold lq.
  replace (lq + 4 - lq)%nat with 4%nat by lia.
  rewrite firstn_all2 by (fold lq; lia).
  rewrite firstn_app, Hy, Nat.sub_diag, firstn_O, app_nil_r, firstn_all2 by (rewrite Hy; lia).
  unfold last4. rewrite list_ascii_of_string_of_list_ascii, length_app, Hy.
  fold lq. replace (lq + 4 - 4)%nat with (List.length q) by (fold lq; lia).
  rewrite skipn_app, skipn_all, Nat.sub_diag, skipn_O. reflexivity.
Qed.

Lemma find_layers_year_of_stem_witness :
  last4 (splitext_root (string_of_list_ascii
    (list_ascii_of_string "/data.v2/run/NPP_" ++ list_ascii_of_string "2001"
     ++ "."%char :: list_ascii_of_string "tif")))
  = "2001"%string.
Proof.
  apply (find_layers_year_of_stem (list_ascii_of_string "/data.v2/run/NPP_")
           (list_ascii_of_string "2001") (list_ascii_of_string "tif")).
  - reflexivity.
  - intros c Hc. simpl in Hc.
    repeat destruct Hc as [<-|Hc]; [split; discriminate ..|contradiction].
  - intros c Hc. simpl in Hc.
    repeat destruct Hc as [<-|Hc]; [split; discriminate ..|contradiction].
Defined.

(** ** Repeated crops *)

(** A [crop] call on a self-cropped box keeps every object's nodata cache
    consistent with the file at the object's path. *)
Lemma crop_selfcropped_nd tr w b l ob out w' j :
  heap w b = Some ob -> o_init ob = true -> tmp_wf w ->
  crop tr b l w = (Ok out, w') -> nd_consistent j w -> nd_consistent j w'.
Proof.
  intros Hob Hi Hwf H Hc.
  unfold crop in H.
  apply bind_inv in H as (o0 & w0 & E0 & H). apply get_obj_inv in E0 as [Ho0 ->].
  rewrite Hob in Ho0. injection Ho0 as <-. rewrite Hi in H. cbn [negb] in H.
  apply bind_inv in H as (u & w0 & E0 & H). apply ret_inv in E0 as [_ ->].
  apply bind_inv in H as (tmp_path & wa & Ea & H). injection Ea as <- <-.
  apply bind_inv in H as (lo & w1 & E1 & H). apply get_obj_inv in E1 as [Hlo ->].
  apply bind_inv in H as (g & wb & Eb & H).
  pose proof (frame_of _ _ _ _ _ (frames_min_geographic_bounds b) Eb) as Fb.
  assert (Kb : nd_consistent j wb).
  { pose proof (wkeeps_nd_min_geographic_bounds j b
                  (mkWorld (fs w) (heap w) (S (next_tmp w)))) as Y.
    rewrite Eb in Y. apply Y. eapply nd_consistent_heap; [reflexivity | reflexivity | exact Hc]. }
  apply bind_inv in H as (src & wb' & E1 & H). apply gdal_open_inv in E1 as [Hsrc ->].
  apply bind_inv in H as (u1 & wc & Ec & H). injection Ec as _ <-.
  apply bind_inv in H as (nb & wd & Ed & H).
  pose proof (frame_of _ _ _ _ _ (frames_nodata_value b) Ed) as Fd.
  apply bind_inv in H as (nl & we & Ee & H).
  pose proof (frame_of _ _ _ _ _ (frames_nodata_value l) Ee) as Fe.
  pose proof (nodata_value_caches _ _ _ _ Ee) as Ce.
  apply bind_inv in H as (output_path & wf & Ef & H). injection Ef as <- <-.
  apply bind_inv in H as (nout & wg & Eg & H).
  destruct Ce as (lc & Hlc & Hnl).
  rewrite (nodata_value_cached (mkWorld (fs we) (heap we) (S (next_tmp we))) l lc nl Hlc Hnl) in Eg. injection Eg as <- <-.
  apply bind_inv in H as (ob' & w2 & E2 & H). apply get_obj_inv in E2 as [Hob' ->].
  apply bind_inv in H as (u2 & wh & Eh & H).
  apply gdal_calc_inv in Eh as (a & bb & Ha & Hbb & _ & ->).
  apply bind_inv in H as (lo' & w2 & E2 & H). apply get_obj_inv in E2 as [Hlo' ->].
  apply ret_inv in H as [-> ->].
  pose proof Fb as Fb'. pose proof Fd as Fd'. pose proof Fe as Fe'.
  destruct Fb as (Fbs & Fbn & Fbo & Fbi). destruct Fd as (Fds & Fdn & Fdo & Fdi).
  destruct Fe as (Fes & Fen & Feo & Fei).
  simpl in *.
  set (wc := mkWorld (upd_fs (PTmp (next_tmp w)) (tr src g) (fs wb)) (heap wb) (next_tmp wb)) in *.
  pose proof (proj2 (Hwf (next_tmp w) (le_n _)) b ob Hob) as Hpob.
  assert (Hnot : forall j o, heap wb j = Some o -> o_path o <> PTmp (next_tmp w)).
  { intros j' o Hj. destruct (Nat.eq_dec j' b) as [->|Hne].
    - destruct (Fbi ob Hob) as (o' & Ho' & Po' & _). rewrite Hj in Ho'.
      injection Ho' as <-. rewrite Po'. exact Hpob.
    - rewrite Fbo in Hj by exact Hne. exact (proj2 (Hwf (next_tmp w) (le_n _)) j' o Hj). }
  assert (Kc : nd_consistent j wc).
  { apply nd_consistent_write; [exact Kb | intros o Ho; exact (Hnot j o Ho)]. }
  assert (Kd : nd_consistent j wd).
  { pose proof (wkeeps_nd_nodata_value j b wc Kc) as Y. rewrite Ed in Y. exact Y. }
  assert (Ke : nd_consistent j we).
  { pose proof (wkeeps_nd_nodata_value j l wd Kd) as Y. rewrite Ee in Y. exact Y. }
  assert (Hnb : next_tmp we = S (next_tmp w)) by (rewrite Fen, Fdn, Fbn; reflexivity).
  assert (I0 : ids_same w we).
  { eapply ids_same_trans; [apply ids_same_heap; reflexivity|].
    eapply ids_same_trans; [exact (frame_ids_same _ _ _ Fb')|].
    eapply ids_same_trans; [apply ids_same_heap; reflexivity|].
    eapply ids_same_trans; [exact (frame_ids_same _ _ _ Fd')|].
    exact (frame_ids_same _ _ _ Fe'). }
  apply nd_consistent_write.
  - eapply nd_consistent_heap; [reflexivity | reflexivity | exact Ke].
  - intros o Ho. simpl in Ho. rewrite Hnb.
    destruct (Nat.eq_dec j b) as [->|Hjb]; [|destruct (Nat.eq_dec j l) as [->|Hjl]].
    + destruct (I0 b ob Hob) as (o2 & Ho2 & Po2 & _). rewrite Ho in Ho2.
      injection Ho2 as <-. rewrite Po2.
      exact (proj2 (Hwf (S (next_tmp w)) (le_S _ _ (le_n _))) b ob Hob).
    + destruct (I0 l lo Hlo) as (o2 & Ho2 & Po2 & _). rewrite Ho in Ho2.
      injection Ho2 as <-. rewrite Po2.
      exact (proj2 (Hwf (S (next_tmp w)) (le_S _ _ (le_n _))) l lo Hlo).
    + rewrite Feo, Fdo, Fbo in Ho by assumption.
      exact (proj2 (Hwf (S (next_tmp w)) (le_S _ _ (le_n _))) j o Ho).
Qed.

(** Cropping the same layer twice in a row gives the same raster, written to
    two different fresh temporary files: the self-cropping done by the first
    call does not change what [crop] produces.  This holds when the windowing
    routine keeps a raster's nodata value and the nodata caches of the box
    and the layer agree with their files. *)
Theorem crop_twice_same_raster tr w b ob r l out1 w1 out2 w2 :
  (forall s g, r_nodata (tr s g) = r_nodata s) ->
  heap w b = Some ob -> fs w (o_path ob) = Some r -> pb_shape ob -> tmp_wf w ->
  nd_consistent b w -> nd_consistent l w ->
  crop tr b l w = (Ok out1, w1) -> crop tr b l w1 = (Ok out2, w2) ->
  o_path out1 <> o_path out2
  /\ fs w2 (o_path out1) <> None
  /\ fs w2 (o_path out2) = fs w2 (o_path out1).
Proof.
  intros Htr Ho Hr Hs Hwf Hcb Hcl H1 H2.
  pose proof (crop_tmp_wf tr w b ob r l out1 w1 Ho Hr Hs Hwf H1) as Hwf1.
  destruct (crop_to_selfcropped tr w b ob r l Ho Hr Hs Hwf)
    as (w0 & ob0 & Ho0 & Hi0 & Hwf0 & _ & _ & _ & _ & Hc0 & Ec).
  rewrite Ec in H1.
  specialize (Hc0 Htr). pose proof (Hc0 b Hcb) as Hcb0. pose proof (Hc0 l Hcl) as Hcl0.
  destruct (crop_selfcropped_ok tr w0 b l ob0 out1 w1 Ho0 Hi0 Hwf0 H1)
    as (lo & src & g & nb & nl & bb & Hlo & Hsrc & Hout1 & Hbb & Hfs1 & Hn1 & Hid1
        & _ & Hg1 & Hnb & Hnl).
  specialize (Hnb Hcb0). specialize (Hnl Hcl0).
  destruct (Hid1 b ob0 Ho0) as (ob1 & Ho1 & Pb1 & _ & _ & Ib1).
  rewrite Hi0 in Ib1.
  pose proof (crop_selfcropped_nd tr w0 b l ob0 out1 w1 b Ho0 Hi0 Hwf0 H1 Hcb0) as Hcb1.
  pose proof (crop_selfcropped_nd tr w0 b l ob0 out1 w1 l Ho0 Hi0 Hwf0 H1 Hcl0) as Hcl1.
  pose proof (keeps_crop b (gb_is g) tr l (keeps_gb_min_geographic_bounds b g)
                (fun z o H => H) (fun p o H => H) (fun v o H => H) w1 Hg1) as Hg2'.
  rewrite H2 in Hg2'. simpl in Hg2'.
  destruct (crop_selfcropped_ok tr w1 b l ob1 out2 w2 Ho1 Ib1 Hwf1 H2)
    as (lo2 & src2 & g2 & nb2 & nl2 & bb2 & Hlo2 & Hsrc2 & Hout2 & Hbb2 & Hfs2 & Hn2 & _
        & _ & Hg2 & Hnb2 & Hnl2).
  specialize (Hnb2 Hcb1). specialize (Hnl2 Hcl1).
  set (m := next_tmp w0) in *.
  assert (Hfresh : forall p, (forall k, (m <= k)%nat -> p <> PTmp k) -> fs w1 p = fs w0 p).
  { intros p Hp. rewrite Hfs1, !upd_fs_other; [reflexivity | apply Hp; lia | apply Hp; lia]. }
  destruct (Hid1 l lo Hlo) as (lo1 & Hlo1 & Pl1 & _).
  rewrite Hlo1 in Hlo2. injection Hlo2 as <-.
  rewrite Pl1, Hfresh in Hsrc2 by (intros k Hk; exact (proj2 (Hwf0 k Hk) l lo Hlo)).
  rewrite Hsrc in Hsrc2. injection Hsrc2 as <-.
  rewrite Pb1, Hfresh in Hbb2 by (intros k Hk; exact (proj2 (Hwf0 k Hk) b ob0 Ho0)).
  rewrite Hbb in Hbb2. injection Hbb2 as <-.
  destruct Hg2 as (o2 & Ho2 & Go2 & _). destruct Hg2' as (o2' & Ho2' & Go2' & _).
  rewrite Ho2 in Ho2'. injection Ho2' as <-. rewrite Go2 in Go2'. injection Go2' as <-.
  subst nb nl nb2 nl2 out1 out2. cbn [Layer o_path].
  rewrite Hn1 in Hfs2 |- *.
  split; [intros E; injection E; lia|].
  rewrite Hfs2, upd_fs_same, !upd_fs_other by (intros E; injection E; lia).
  rewrite Hfs1, upd_fs_same. split; [discriminate | reflexivity].
Qed.

Lemma crop_twice_same_raster_witness :
  PTmp 2 <> PTmp 4
  /\ fs (snd (crop keep_window 0 1 (snd (crop keep_window 0 1 world_box_layer)))) (PTmp 2)
     <> None
  /\ fs (snd (crop keep_window 0 1 (snd (crop keep_window 0 1 world_box_layer)))) (PTmp 4)
     = fs (snd (crop keep_window 0 1 (snd (crop keep_window 0 1 world_box_layer)))) (PTmp 2).
Proof.
  apply (crop_twice_same_raster keep_window world_box_layer 0 (BoundingBox (PUser "bbox.tif"))
           box_4x4 1 (Layer (PTmp 2) (PyInt 2001) None)
           (snd (crop keep_window 0 1 world_box_layer))
           (Layer (PTmp 4) (PyInt 2001) None)
           (snd (crop keep_window 0 1 (snd (crop keep_window 0 1 world_box_layer))))).
  - intros s g. reflexivity.
  - reflexivity.
  - reflexivity.
  - intros H. discriminate H.
  - fresh_world_tac.
  - no_cache_tac.
  - no_cache_tac.
  - vm_compute. reflexivity.
  - vm_compute. reflexivity.
Defined.

(** The cropped layer's raster has the input layer's nodata value, the one
    [crop] passes to [gdal_calc.Calc] as the output's nodata value, when the
    layer's nodata cache agrees with its file.  This holds whatever the
    windowing routine does, for any input layer other than the box. *)
Theorem crop_output_nodata tr w b ob r l out w' :
  heap w b = Some ob -> fs w (o_path ob) = Some r -> pb_shape ob -> tmp_wf w ->
  l <> b -> nd_consistent l w ->
  crop tr b l w = (Ok out, w') ->
  exists lo src C,
    heap w l = Some lo /\ fs w (o_path lo) = Some src
    /\ fs w' (o_path out) = Some C /\ r_nodata C = r_nodata src.
Proof.
  intros Ho Hr Hs Hwf Hl Hcl H.
  destruct (crop_start tr w b ob r l Ho Hr Hs Hwf)
    as (w1 & ob1 & Ho1 & Hi1 & Hwf1 & _ & _ & Hh1 & Hf1 & Ec).
  rewrite Ec in H.
  assert (Hcl1 : nd_consistent l w1).
  { intros o r' Hj Hr'. rewrite Hh1 in Hj by exact Hl.
    rewrite Hf1 in Hr' by (intros k Hk; exact (proj2 (Hwf k Hk) l o Hj)).
    exact (Hcl o r' Hj Hr'). }
  destruct (crop_selfcropped_ok tr w1 b l ob1 out w' Ho1 Hi1 Hwf1 H)
    as (lo & src & g & nb & nl & bb & Hlo & Hsrc & Hout & _ & Hfs' & _ & _ & _ & _ & _ & Hnl).
  rewrite Hh1 in Hlo by exact Hl.
  rewrite Hf1 in Hsrc by (intros k Hk; exact (proj2 (Hwf k Hk) l lo Hlo)).
  exists lo, src, (calc_raster nb nl nl (tr src g) bb).
  split; [exact Hlo|]. split; [exact Hsrc|].
  split; [rewrite Hfs', Hout; apply upd_fs_same|].
  exact (Hnl Hcl1).
Qed.

Lemma crop_output_nodata_witness :
  exists lo src C,
    heap world_box_layer 1 = Some lo /\ fs world_box_layer (o_path lo) = Some src
    /\ fs (snd (crop (fun s _ => mkRaster (r_data s) 0 (r_gt s) (r_type s)) 0 1 world_box_layer))
         (PTmp 2) = Some C
    /\ r_nodata C = r_nodata src.
Proof.
  apply (crop_output_nodata (fun s _ => mkRaster (r_data s) 0 (r_gt s) (r_type s)) world_box_layer 0
           (BoundingBox (PUser "bbox.tif")) box_4x4 1 (Layer (PTmp 2) (PyInt 2001) None)
           (snd (crop (fun s _ => mkRaster (r_data s) 0 (r_gt s) (r_type s)) 0 1 world_box_layer))).
  - reflexivity.
  - reflexivity.
  - intros H. discriminate H.
  - fresh_world_tac.
  - discriminate.
  - no_cache_tac.
  - vm_compute. reflexivity.
Defined.
